(** * go-elasticsearch-testfixtures: fixture parser and Loader lifecycle

    A shallow embedding of the package [testfixtures]: the fixture parser
    ([parseFixtures], [parseIndexDir], [readJSONFile], [parseDocumentFiles],
    [parseYAMLDocuments]), the index operations ([createIndex],
    [buildCreateIndexBody], [deleteIndex], [bulkInsertDocuments],
    [refreshIndex], [checkResponse]) and the Loader ([Load], [Clean]).

    Go values of type [error] are modelled by [error]; a Go function
    returning [(T, error)] returns [result T]; the file system is a tree of
    [node]s; the Elasticsearch client is an interface ([Client]) over an
    abstract world, and every request sent through it is logged in a trace. *)

From stdpp Require Import base strings list gmap sorting pretty.

(** ** Go errors *)

Inductive errno := ENOENT | EACCES | EISDIR | ENOTDIR.

Definition errno_text (no : errno) : string :=
  match no with
  | ENOENT => "no such file or directory"
  | EACCES => "permission denied"
  | EISDIR => "is a directory"
  | ENOTDIR => "not a directory"
  end.

(** An [error] is either an [*fs.PathError] coming from package [os], or an
    error built by [fmt.Errorf] / [errors.New] / a library, of which only the
    message is observable. *)
Inductive error :=
| PathError (op path : string) (no : errno)
| Errorf (msg : string).

(** [err.Error()] *)
Definition Error (e : error) : string :=
  match e with
  | PathError op path no => op +:+ " " +:+ path +:+ ": " +:+ errno_text no
  | Errorf msg => msg
  end.

(** [os.IsNotExist(err)]: looks at the errno under a [PathError]; it does not
    unwrap errors made by [fmt.Errorf]. *)
Definition os_IsNotExist (e : error) : bool :=
  match e with
  | PathError _ _ ENOENT => true
  | _ => false
  end.

(** [fmt.Errorf(prefix + "%w", err)] *)
Definition wrap (pre : string) (e : error) : error := Errorf (pre +:+ Error e).

Inductive result (A : Type) :=
| Ok (a : A)
| Err (e : error).
Arguments Ok {A} a.
Arguments Err {A} e.

Definition is_Ok {A} (r : result A) : Prop := ∃ a, r = Ok a.

Definition rbind {A B} (r : result A) (k : A → result B) : result B :=
  match r with
  | Ok a => k a
  | Err e => Err e
  end.

(** Run [f] on every element, left to right, stopping at the first error. *)
Fixpoint rmapM {A B} (f : A → result B) (l : list A) : result (list B) :=
  match l with
  | [] => Ok []
  | x :: l' => rbind (f x) (λ y, rbind (rmapM f l') (λ ys, Ok (y :: ys)))
  end.

(** ** Library functions used by the package

    The package calls into the Go standard library, [gopkg.in/yaml.v3] and
    [encoding/json]; these are not part of the repository and are taken as
    an interface. [value] is the type of the [interface{}] values the YAML
    decoder produces. *)
Class GoRuntime := {
  value : Type;
  (** [fmt.Sprintf("%v", v)] *)
  fmt_v : value → string;
  (** [strconv.Quote], the [%q] verb on a string *)
  strconv_Quote : string → string;
  (** [json.Valid(data)] *)
  json_Valid : string → bool;
  (** [yaml.Unmarshal(data, &rawDocs)] with [rawDocs []map[string]interface{}] *)
  yaml_Unmarshal : string → result (list (gmap string value));
  (** [json.Marshal] of a [map[string]interface{}] *)
  json_Marshal_doc : gmap string value → result string;
  (** [json.Marshal] of a [map[string]json.RawMessage] *)
  json_Marshal_raw : gmap string string → result string;
}.

(** [strings.HasPrefix(s, prefix)] *)
Definition strings_HasPrefix (s pre : string) : bool := String.prefix pre s.

(** [strings.HasSuffix(s, suffix)]:
    [len(s) >= len(suffix) && s[len(s)-len(suffix):] == suffix] *)
Definition strings_HasSuffix (s suf : string) : bool :=
  (String.length suf <=? String.length s)%nat &&
  String.eqb
    (String.substring (String.length s - String.length suf) (String.length suf) s)
    suf.

(** [strings.Join(elems, sep)] *)
Definition strings_Join (elems : list string) (sep : string) : string :=
  String.concat sep elems.
Global Arguments strings_Join : simpl never.

(** [filepath.Join(dir, name)] for an already clean [dir] and a single path
    element [name]. Go's [Join] also cleans its result, so for a [dir] such
    as [./fixtures] or [fixtures/] the text of the path differs from this
    one; [parseFixtures] hands [parseIndexDir] a joined, hence clean,
    directory. *)
Definition filepath_Join (dir name : string) : string := dir +:+ "/" +:+ name.

(** ** The file system *)

(** A directory holds its entries in the order the operating system happens
    to store them; names are unique within a directory. [Unreadable] is an
    entry that exists but cannot be opened. *)
Inductive node :=
| File (data : string)
| Dir (entries : list (string * node))
| Unreadable (isdir : bool).

(** [os.DirEntry]: [Name()] is the first component. *)
Definition DirEntry : Type := string * node.

Definition IsDir (e : DirEntry) : bool :=
  match e.2 with
  | Dir _ => true
  | File _ => false
  | Unreadable d => d
  end.

Definition entry_le : relation DirEntry := λ a b, String.le a.1 b.1.

Global Instance entry_le_dec : RelDecision entry_le.
Proof. intros a b. unfold entry_le. apply _. Defined.

Global Instance entry_le_total : Total entry_le.
Proof. intros a b. unfold entry_le. apply (total String.le). Qed.

Global Instance entry_le_trans : Transitive entry_le.
Proof. intros a b c. unfold entry_le. apply (transitivity (R:=String.le)). Qed.

(** [os.ReadDir(path)]: "returns all its directory entries sorted by
    filename". [target] is what [path] resolves to. *)
Definition os_ReadDir (path : string) (target : errno + node) : result (list DirEntry) :=
  match target with
  | inl no => Err (PathError "open" path no)
  | inr (Dir es) => Ok (merge_sort entry_le es)
  | inr (File _) => Err (PathError "readdirent" path ENOTDIR)
  | inr (Unreadable _) => Err (PathError "open" path EACCES)
  end.

(** [os.ReadFile(path)] *)
Definition os_ReadFile (path : string) (target : errno + node) : result string :=
  match target with
  | inl no => Err (PathError "open" path no)
  | inr (File data) => Ok data
  | inr (Dir _) => Err (PathError "read" path EISDIR)
  | inr (Unreadable _) => Err (PathError "open" path EACCES)
  end.

Fixpoint find_entry (name : string) (es : list DirEntry) : option node :=
  match es with
  | [] => None
  | e :: es' => if decide (e.1 = name) then Some e.2 else find_entry name es'
  end.

(** What [filepath.Join(dir, name)] resolves to when [dir] resolves to [d]. *)
Definition resolve (d : node) (name : string) : errno + node :=
  match d with
  | Dir es => from_option inr (inl ENOENT) (find_entry name es)
  | File _ => inl ENOTDIR
  | Unreadable true => inl EACCES
  | Unreadable false => inl ENOTDIR
  end.

(** ** fixture.go *)

(** [document]: a single Elasticsearch document to be indexed. A nil [Body]
    map and an empty one are not distinguished. *)
Record document `{GoRuntime} := {
  ID : string;
  Body : gmap string value;
}.

(** [indexFixture]: a [nil] [json.RawMessage] is [None]. *)
Record indexFixture `{GoRuntime} := {
  name : string;
  mapping : option string;
  settings : option string;
  documents : list document;
}.

(** ** The parser *)

Section parser.
Context `{GoRuntime}.

Definition mappingFile : string := "_mapping.json".
Definition settingsFile : string := "_settings.json".

Definition readJSONFile (path : string) (target : errno + node) : result string :=
  match os_ReadFile path target with
  | Err err => Err err
  | Ok data =>
      if negb (json_Valid data)
      then Err (Errorf ("invalid JSON in " +:+ strconv_Quote path))
      else Ok data
  end.

(** The body of the loop of [parseYAMLDocuments]: [doc.Body] aliases [raw],
    which is not used again after the [delete]. *)
Definition mkDocument (raw : gmap string value) : document :=
  match raw !! "_id" with
  | Some id => {| ID := fmt_v id; Body := delete "_id" raw |}
  | None => {| ID := ""; Body := raw |}
  end.

Definition parseYAMLDocuments (path : string) (target : errno + node) : result (list document) :=
  match os_ReadFile path target with
  | Err err => Err (wrap "reading file: " err)
  | Ok data =>
      match yaml_Unmarshal data with
      | Err err => Err (wrap "unmarshaling YAML: " err)
      | Ok rawDocs => Ok (mkDocument <$> rawDocs)
      end
  end.

(** The loop of [parseDocumentFiles] over the sorted entries; [docs] is the
    slice accumulated so far. Names being unique in a directory,
    [filepath.Join(dir, name)] resolves to the node of the entry listed. *)
Fixpoint parseDocumentFiles_loop (dir : string) (entries : list DirEntry)
    (docs : list document) : result (list document) :=
  match entries with
  | [] => Ok docs
  | entry :: rest =>
      if IsDir entry then parseDocumentFiles_loop dir rest docs
      else
        let name := entry.1 in
        if negb (strings_HasSuffix name ".yml") && negb (strings_HasSuffix name ".yaml")
        then parseDocumentFiles_loop dir rest docs
        else if strings_HasPrefix name "_"
        then parseDocumentFiles_loop dir rest docs
        else
          match parseYAMLDocuments (filepath_Join dir name) (inr entry.2) with
          | Err err => Err (wrap ("parsing document file " +:+ strconv_Quote name +:+ ": ") err)
          | Ok fileDocs => parseDocumentFiles_loop dir rest (docs ++ fileDocs)
          end
  end.

Definition parseDocumentFiles (dir : string) (target : errno + node) : result (list document) :=
  match os_ReadDir dir target with
  | Err err => Err (wrap ("reading directory " +:+ strconv_Quote dir +:+ ": ") err)
  | Ok entries => parseDocumentFiles_loop dir entries []
  end.

(** [parseIndexDir(dir, name)], where [dir] resolves to [d]. A read error of
    a schema file that is [os.IsNotExist] leaves the field [nil]. *)
Definition parseIndexDir (dir name : string) (d : node) : result indexFixture :=
  match
    match readJSONFile (filepath_Join dir mappingFile) (resolve d mappingFile) with
    | Err err =>
        if negb (os_IsNotExist err)
        then Err (wrap ("reading " +:+ mappingFile +:+ ": ") err) else Ok None
    | Ok m => Ok (Some m)
    end
  with
  | Err e => Err e
  | Ok mapping =>
      match
        match readJSONFile (filepath_Join dir settingsFile) (resolve d settingsFile) with
        | Err err =>
            if negb (os_IsNotExist err)
            then Err (wrap ("reading " +:+ settingsFile +:+ ": ") err) else Ok None
        | Ok s => Ok (Some s)
        end
      with
      | Err e => Err e
      | Ok settings =>
          match parseDocumentFiles dir (inr d) with
          | Err err => Err err
          | Ok docs =>
              Ok {| name := name; mapping := mapping; settings := settings;
                    documents := docs |}
          end
      end
  end.

(** The loop of [parseFixtures] over the sorted entries of the root. *)
Fixpoint parseFixtures_loop (dir : string) (entries : list DirEntry)
    (fixtures : list indexFixture) : result (list indexFixture) :=
  match entries with
  | [] => Ok fixtures
  | entry :: rest =>
      if negb (IsDir entry) then parseFixtures_loop dir rest fixtures
      else
        match parseIndexDir (filepath_Join dir entry.1) entry.1 entry.2 with
        | Err err => Err (wrap ("parsing index " +:+ strconv_Quote entry.1 +:+ ": ") err)
        | Ok f => parseFixtures_loop dir rest (fixtures ++ [f])
        end
  end.

(** [parseFixtures(dir)], where [dir] resolves to [target]. *)
Definition parseFixtures (dir : string) (target : errno + node) : result (list indexFixture) :=
  match os_ReadDir dir target with
  | Err err => Err (wrap ("reading fixtures directory " +:+ strconv_Quote dir +:+ ": ") err)
  | Ok entries =>
      match parseFixtures_loop dir entries [] with
      | Err err => Err err
      | Ok fixtures =>
          if decide (length fixtures = 0)
          then Err (Errorf ("no index directories found in " +:+ strconv_Quote dir))
          else Ok fixtures
      end
  end.

End parser.

(** ** The Elasticsearch client *)

(** [*esapi.Response]: [Status()] is the status line, [IsError()] is
    [StatusCode > 299]. *)
Record Response := {
  StatusCode : Z;
  Status : string;
  ResponseBody : string;
}.

Definition IsError (res : Response) : bool := (299 <? StatusCode res)%Z.

(** [esutil.BulkIndexerItem]; the field [Body] of the Go struct is
    [ItemBody] here. The [OnFailure] closure is the same for every item and
    is modelled by [OnFailure] below. *)
Record BulkIndexerItem := {
  Action : string;
  DocumentID : string;
  ItemBody : string;
}.

(** The arguments [res] and [err] with which the indexer invokes an item's
    [OnFailure] callback. *)
Record Failure := {
  fail_Status : Z;
  fail_Type : string;
  fail_Reason : string;
  fail_err : option error;
}.

(** The requests the package sends through the client. *)
Inductive call :=
| CallDelete (names : list string) (ignoreUnavailable : bool)
| CallCreate (index : string) (body : option string)
| CallRefresh (index : string)
| CallNewBulkIndexer (index : string)
| CallAdd (item : BulkIndexerItem)
| CallClose.

(** The client, together with the execution context it is given, over the
    state [World] of the live store. [Indexer_Add] and [Indexer_Close] also
    return the [OnFailure] invocations made while they ran. *)
Class Client (World : Type) := {
  Indices_Delete : list string → bool → World → result Response * World;
  Indices_Create : string → option string → World → result Response * World;
  Indices_Refresh : string → World → result Response * World;
  NewBulkIndexer : string → World → result unit * World;
  Indexer_Add : BulkIndexerItem → World → (list Failure * result unit) * World;
  Indexer_Close : World → (list Failure * result unit) * World;
  (** [indexer.Stats().NumFailed] *)
  Stats_NumFailed : World → N;
}.

(** ** index.go and testfixtures.go *)

Section loader.
Context `{GoRuntime} {World : Type} `{Client World}.

Record St := {
  world : World;
  trace : list call;
}.

(** A Go function that talks to the store. *)
Definition M (A : Type) : Type := St → result A * St.

(** Send one request: log it, then let the client answer. *)
Definition request {A} (c : call) (op : World → A * World) : St → A * St :=
  λ st, let (a, w) := op (world st) in
        (a, {| world := w; trace := trace st ++ [c] |}).

Definition checkResponse (res : Response) : result unit :=
  if negb (IsError res) then Ok tt
  else Err (Errorf ("elasticsearch error [" +:+ Status res +:+ "]: " +:+ ResponseBody res)).

Definition buildCreateIndexBody (mapping settings : option string) : result (option string) :=
  match mapping, settings with
  | None, None => Ok None
  | _, _ =>
      let body : gmap string string := ∅ in
      let body := match mapping with Some m => <["mappings" := m]> body | None => body end in
      let body := match settings with Some s => <["settings" := s]> body | None => body end in
      match json_Marshal_raw body with
      | Ok b => Ok (Some b)
      | Err e => Err e
      end
  end.

Definition createIndex (name : string) (mapping settings : option string) : M unit := λ st,
  match buildCreateIndexBody mapping settings with
  | Err err => (Err (wrap "building request body: " err), st)
  | Ok body =>
      match request (CallCreate name body) (Indices_Create name body) st with
      | (Err err, st') => (Err (wrap ("creating index " +:+ strconv_Quote name +:+ ": ") err), st')
      | (Ok res, st') =>
          match checkResponse res with
          | Err err => (Err (wrap ("creating index " +:+ strconv_Quote name +:+ ": ") err), st')
          | Ok _ => (Ok tt, st')
          end
      end
  end.

Definition deleteIndex (name : string) : M unit := λ st,
  match request (CallDelete [name] true) (Indices_Delete [name] true) st with
  | (Err err, st') => (Err (wrap ("deleting index " +:+ strconv_Quote name +:+ ": ") err), st')
  | (Ok res, st') =>
      match checkResponse res with
      | Err err => (Err (wrap ("deleting index " +:+ strconv_Quote name +:+ ": ") err), st')
      | Ok _ => (Ok tt, st')
      end
  end.

Definition refreshIndex (name : string) : M unit := λ st,
  match request (CallRefresh name) (Indices_Refresh name) st with
  | (Err err, st') => (Err (wrap ("refreshing index " +:+ strconv_Quote name +:+ ": ") err), st')
  | (Ok res, st') =>
      match checkResponse res with
      | Err err => (Err (wrap ("refreshing index " +:+ strconv_Quote name +:+ ": ") err), st')
      | Ok _ => (Ok tt, st')
      end
  end.

(** The message an [OnFailure] invocation appends to [bulkErrors]. *)
Definition failure_message (f : Failure) : string :=
  match fail_err f with
  | Some err => Error err
  | None =>
      "[" +:+ pretty (fail_Status f) +:+ "] " +:+ fail_Type f +:+ ": " +:+ fail_Reason f
  end.

Definition OnFailure (bulkErrors : list string) (f : Failure) : list string :=
  bulkErrors ++ [failure_message f].

(** The item built for one document (lines 99-113). *)
Definition mkItem (doc : document) (body : string) : BulkIndexerItem :=
  let item := {| Action := "index"; DocumentID := ""; ItemBody := body |} in
  if decide (ID doc ≠ "")
  then {| Action := Action item; DocumentID := ID doc; ItemBody := ItemBody item |}
  else item.

(** The loop of [bulkInsertDocuments]; [bulkErrors] is the slice shared with
    the callbacks. *)
Fixpoint bulkInsert_loop (docs : list document) (bulkErrors : list string)
    : M (list string) := λ st,
  match docs with
  | [] => (Ok bulkErrors, st)
  | doc :: rest =>
      match json_Marshal_doc (Body doc) with
      | Err err => (Err (wrap "marshaling document: " err), st)
      | Ok body =>
          let item := mkItem doc body in
          match request (CallAdd item) (Indexer_Add item) st with
          | ((fails, Err err), st') =>
              (Err (wrap "adding document to bulk indexer: " err), st')
          | ((fails, Ok _), st') =>
              bulkInsert_loop rest (foldl OnFailure bulkErrors fails) st'
          end
      end
  end.

Definition bulkInsertDocuments (indexName : string) (docs : list document) : M unit := λ st,
  if decide (length docs = 0) then (Ok tt, st)
  else
    match request (CallNewBulkIndexer indexName) (NewBulkIndexer indexName) st with
    | (Err err, st0) =>
        (Err (wrap ("creating bulk indexer for " +:+ strconv_Quote indexName +:+ ": ") err), st0)
    | (Ok _, st0) =>
        match bulkInsert_loop docs [] st0 with
        | (Err err, st1) => (Err err, st1)
        | (Ok bulkErrors, st1) =>
            match request CallClose Indexer_Close st1 with
            | ((fails, Err err), st2) =>
                (Err (wrap ("closing bulk indexer for " +:+ strconv_Quote indexName +:+ ": ") err), st2)
            | ((fails, Ok _), st2) =>
                let bulkErrors := foldl OnFailure bulkErrors fails in
                if decide (0 < length bulkErrors)
                then (Err (Errorf ("bulk insert errors for " +:+ strconv_Quote indexName +:+ ": "
                                   +:+ strings_Join bulkErrors "; ")), st2)
                else
                  let numFailed := Stats_NumFailed (world st2) in
                  if decide (0 < numFailed)%N
                  then (Err (Errorf ("bulk insert for " +:+ strconv_Quote indexName +:+ ": "
                                     +:+ pretty numFailed +:+ " documents failed")), st2)
                  else (Ok tt, st2)
            end
        end
    end.

Fixpoint Load (fixtures : list indexFixture) : M unit := λ st,
  match fixtures with
  | [] => (Ok tt, st)
  | f :: rest =>
      let indexName := name f in
      match deleteIndex indexName st with
      | (Err err, st1) => (Err (wrap "testfixtures: " err), st1)
      | (Ok _, st1) =>
      match createIndex indexName (mapping f) (settings f) st1 with
      | (Err err, st2) => (Err (wrap "testfixtures: " err), st2)
      | (Ok _, st2) =>
      match bulkInsertDocuments indexName (documents f) st2 with
      | (Err err, st3) => (Err (wrap "testfixtures: " err), st3)
      | (Ok _, st3) =>
      match refreshIndex indexName st3 with
      | (Err err, st4) => (Err (wrap "testfixtures: " err), st4)
      | (Ok _, st4) => Load rest st4
      end end end end
  end.

Definition newline : string := Eval cbv in String (Ascii.ascii_of_nat 10) "".

(** [errors.Join(errs...)] of non-nil errors. *)
Definition errors_Join (errs : list error) : error :=
  Errorf (strings_Join (Error <$> errs) newline).

(** The loop of [Clean]; [errs] is the slice accumulated so far. *)
Fixpoint Clean_loop (fixtures : list indexFixture) (errs : list error)
    : St → list error * St := λ st,
  match fixtures with
  | [] => (errs, st)
  | f :: rest =>
      match deleteIndex (name f) st with
      | (Err err, st') => Clean_loop rest (errs ++ [err]) st'
      | (Ok _, st') => Clean_loop rest errs st'
      end
  end.

Definition Clean (fixtures : list indexFixture) : M unit := λ st,
  let (errs, st') := Clean_loop fixtures [] st in
  if decide (0 < length errs)
  then (Err (wrap "testfixtures: cleaning up: " (errors_Join errs)), st')
  else (Ok tt, st').

End loader.

(** ** Vocabulary of the specification *)

(** [sub] occurs in [s]. *)
Definition is_substring (sub s : string) : Prop :=
  ∃ pre post, s = pre +:+ sub +:+ post.

(** A test for [is_substring]: it finds every occurrence. *)
Fixpoint contains (sub s : string) : bool :=
  String.prefix sub s
  || match s with
     | EmptyString => false
     | String _ s' => contains sub s'
     end.

(** Names are unique in the directory and in each of its subdirectories. *)
Definition names_unique (es : list DirEntry) : Prop :=
  NoDup es.*1
  ∧ Forall (λ e, match e.2 with Dir des => NoDup des.*1 | _ => True end) es.

(** An entry up to the order in which a subdirectory stores its entries. *)
Definition canon_entry (e : DirEntry) : DirEntry :=
  (e.1, match e.2 with Dir des => Dir (merge_sort entry_le des) | n => n end).

(** Two listings of the same directory tree: the same entries, stored in any
    order in the directory and in each of its subdirectories. *)
Definition same_tree (es1 es2 : list DirEntry) : Prop :=
  canon_entry <$> es1 ≡ₚ canon_entry <$> es2.

Section parser_spec.
Context `{GoRuntime}.

(** A record source: a non-directory entry named [*.yml] or [*.yaml] that
    does not start with [_]. *)
Definition is_record_source (e : DirEntry) : bool :=
  negb (IsDir e)
  && (strings_HasSuffix e.1 ".yml" || strings_HasSuffix e.1 ".yaml")
  && negb (strings_HasPrefix e.1 "_").

(** The record sources of a directory, in the order they are discovered. *)
Definition record_sources (es : list DirEntry) : list DirEntry :=
  filter (λ e, is_record_source e) (merge_sort entry_le es).

(** The records of one record source. *)
Definition parse_source (dir : string) (e : DirEntry) : result (list document) :=
  match parseYAMLDocuments (filepath_Join dir e.1) (inr e.2) with
  | Err err => Err (wrap ("parsing document file " +:+ strconv_Quote e.1 +:+ ": ") err)
  | Ok fileDocs => Ok fileDocs
  end.

(** The collection directories of a root, in the order they are discovered. *)
Definition collection_dirs (es : list DirEntry) : list DirEntry :=
  filter (λ e, IsDir e) (merge_sort entry_le es).

(** The fixture of one collection directory. *)
Definition parse_collection (dir : string) (e : DirEntry) : result indexFixture :=
  match parseIndexDir (filepath_Join dir e.1) e.1 e.2 with
  | Err err => Err (wrap ("parsing index " +:+ strconv_Quote e.1 +:+ ": ") err)
  | Ok f => Ok f
  end.

(** A schema or settings file is absent, or a file holding valid JSON. *)
Definition schema_ok (o : option node) : Prop :=
  match o with
  | None => True
  | Some (File data) => json_Valid data = true
  | Some _ => False
  end.

(** Every record source is a readable file that decodes as a sequence of
    mappings. *)
Definition records_ok (es : list DirEntry) : Prop :=
  Forall (λ e, is_record_source e →
               ∃ data, e.2 = File data ∧ is_Ok (yaml_Unmarshal data)) es.

Definition well_formed_collection (d : node) : Prop :=
  ∃ es, d = Dir es
        ∧ schema_ok (find_entry mappingFile es)
        ∧ schema_ok (find_entry settingsFile es)
        ∧ records_ok es.

(** The empty-fixture-set error. *)
Definition EmptyFixtureSet (dir : string) : error :=
  Errorf ("no index directories found in " +:+ strconv_Quote dir).

(** The error reported for a record source [file] of collection [index]
    whose content does not decode. *)
Definition MalformedRecords (index file : string) (cause : error) : error :=
  Errorf ("parsing index " +:+ strconv_Quote index +:+ ": "
          +:+ "parsing document file " +:+ strconv_Quote file +:+ ": "
          +:+ "unmarshaling YAML: " +:+ Error cause).

(** What a record object becomes, as the specification words it. *)
Definition record_of (raw : gmap string value) (doc : document) : Prop :=
  match raw !! "_id" with
  | Some id =>
      ID doc = fmt_v id ∧ Body doc = delete "_id" raw ∧ Body doc !! "_id" = None
  | None => ID doc = "" ∧ Body doc = raw
  end.

End parser_spec.

Section loader_spec.
Context `{GoRuntime} {World : Type} `{Client World}.

Inductive phase := Delete | Create | Populate | Activate.

Definition run_phase (step : indexFixture * phase) : M unit :=
  let (f, p) := step in
  match p with
  | Delete => deleteIndex (name f)
  | Create => createIndex (name f) (mapping f) (settings f)
  | Populate => bulkInsertDocuments (name f) (documents f)
  | Activate => refreshIndex (name f)
  end.

(** The phases [Load] has to run, in order. *)
Fixpoint plan (fixtures : list indexFixture) : list (indexFixture * phase) :=
  match fixtures with
  | [] => []
  | f :: rest => (f, Delete) :: (f, Create) :: (f, Populate) :: (f, Activate) :: plan rest
  end.

(** Every step of the list succeeds, taking the store from [st] to [st']. *)
Inductive steps_ok : list (indexFixture * phase) → St → St → Prop :=
| steps_ok_nil st : steps_ok [] st st
| steps_ok_cons step rest st st1 st2 :
    run_phase step st = (Ok tt, st1) →
    steps_ok rest st1 st2 →
    steps_ok (step :: rest) st st2.

(** The indexer accepts every item of the list, invoking [OnFailure] with
    [fails] on the way. *)
Inductive adds_accepted : list BulkIndexerItem → World → list Failure → World → Prop :=
| adds_accepted_nil w : adds_accepted [] w [] w
| adds_accepted_cons item items w fs w1 fs' w2 :
    Indexer_Add item w = ((fs, Ok tt), w1) →
    adds_accepted items w1 fs' w2 →
    adds_accepted (item :: items) w (fs ++ fs') w2.

(** The items handed to the indexer in a trace. *)
Definition added_items (tr : list call) : list BulkIndexerItem :=
  omap (λ c, match c with CallAdd item => Some item | _ => None end) tr.

(** An item carries an explicit document identifier. *)
Definition has_explicit_id (item : BulkIndexerItem) : Prop := DocumentID item ≠ "".

(** What one added item owes to its record. *)
Definition item_of (doc : document) (item : BulkIndexerItem) : Prop :=
  Action item = "index"
  ∧ (has_explicit_id item ↔ ID doc ≠ "")
  ∧ (has_explicit_id item → DocumentID item = ID doc)
  ∧ json_Marshal_doc (Body doc) = Ok (ItemBody item).

(** Request the deletion of every collection, whatever the outcomes. *)
Fixpoint delete_every (fixtures : list indexFixture) : St → list (result unit) * St := λ st,
  match fixtures with
  | [] => ([], st)
  | f :: rest =>
      let (r, st1) := deleteIndex (name f) st in
      let (rs, st2) := delete_every rest st1 in
      (r :: rs, st2)
  end.

Definition failures (rs : list (result unit)) : list error :=
  omap (λ r, match r with Err e => Some e | Ok _ => None end) rs.

End loader_spec.

(** ** options.go and testfixtures.go: construction *)

Section construction.
Context `{GoRuntime} {ClientHandle ExecContext : Type}.

(** [Loader]. [client] is a non-nil [*elasticsearch.Client], [ctx] a
    [context.Context]. *)
Record Loader := {
  client : ClientHandle;
  dir : string;
  ctx : ExecContext;
  fixtures : list indexFixture;
}.

(** [Option]: a function that updates the Loader it is given and may return
    an error; here it returns the Loader as it leaves it. *)
Definition Option : Type := Loader → result Loader.

Definition Directory (d : string) : Option := λ l,
  Ok {| client := client l; dir := d; ctx := ctx l; fixtures := fixtures l |}.

Definition WithContext (c : ExecContext) : Option := λ l,
  Ok {| client := client l; dir := dir l; ctx := c; fixtures := fixtures l |}.

(** The loop of [New] over the options. *)
Fixpoint New_options (opts : list Option) (l : Loader) : result Loader :=
  match opts with
  | [] => Ok l
  | opt :: rest =>
      match opt l with
      | Err err => Err (wrap "testfixtures: applying option: " err)
      | Ok l' => New_options rest l'
      end
  end.

(** [New(client, opts...)]: [fs] tells what every path of the file system
    resolves to, [background] is [context.Background()], a [nil] client is
    [None]. *)
Definition New (fs : string → errno + node) (background : ExecContext)
    (c : option ClientHandle) (opts : list Option) : result Loader :=
  match c with
  | None => Err (Errorf "testfixtures: client must not be nil")
  | Some c =>
      let l := {| client := c; dir := ""; ctx := background; fixtures := [] |} in
      match New_options opts l with
      | Err err => Err err
      | Ok l =>
          if decide (dir l = "")
          then Err (Errorf "testfixtures: Directory option is required")
          else
            match parseFixtures (dir l) (fs (dir l)) with
            | Err err => Err (wrap "testfixtures: " err)
            | Ok fs' =>
                Ok {| client := client l; dir := dir l; ctx := ctx l; fixtures := fs' |}
            end
      end
  end.

End construction.

(** ** Further vocabulary *)

(** The bytes of a schema or settings file. *)
Definition file_content (o : option node) : option string :=
  match o with
  | Some (File data) => Some data
  | _ => None
  end.

Section requests_spec.
Context `{GoRuntime}.

(** The items of the records up to the first one whose body does not
    encode. *)
Fixpoint add_calls (docs : list document) : list call :=
  match docs with
  | [] => []
  | doc :: rest =>
      match json_Marshal_doc (Body doc) with
      | Err _ => []
      | Ok body => CallAdd (mkItem doc body) :: add_calls rest
      end
  end.

Definition all_encode (docs : list document) : bool :=
  forallb (λ doc, match json_Marshal_doc (Body doc) with Ok _ => true | Err _ => false end)
    docs.

(** The requests of a populate phase that the store lets run to its end. *)
Definition populate_calls (indexName : string) (docs : list document) : list call :=
  match docs with
  | [] => []
  | _ => CallNewBulkIndexer indexName
         :: add_calls docs ++ (if all_encode docs then [CallClose] else [])
  end.

Definition create_calls (nm : string) (mapping settings : option string) : list call :=
  match buildCreateIndexBody mapping settings with
  | Ok body => [CallCreate nm body]
  | Err _ => []
  end.

(** The requests of the four phases of one collection. *)
Definition fixture_calls (f : indexFixture) : list call :=
  CallDelete [name f] true
  :: create_calls (name f) (mapping f) (settings f)
  ++ populate_calls (name f) (documents f)
  ++ [CallRefresh (name f)].

(** The requests of a whole [Load]. *)
Definition Load_calls (fixtures : list indexFixture) : list call :=
  concat (fixture_calls <$> fixtures).

End requests_spec.

Section requests_order_spec.
Context `{GoRuntime} {World : Type} `{Client World}.

(** Whatever the store answers, the requests [m] sends are the first ones
    of [calls], and all of [calls] when [m] succeeds. *)
Definition sends_prefix_of (m : @M World unit) (calls : list call) : Prop :=
  ∀ st, ∃ sent,
    trace (m st).2 = trace st ++ sent
    ∧ sent `prefix_of` calls
    ∧ ((m st).1 = Ok tt → sent = calls).

(** One phase of [Load] followed by what comes after it. *)
Definition Load_then (m k : @M World unit) : M unit := λ st,
  match m st with
  | (Err err, st1) => (Err (wrap "testfixtures: " err), st1)
  | (Ok _, st1) => k st1
  end.

End requests_order_spec.

Section construction_spec.
Context `{GoRuntime} {ClientHandle ExecContext : Type}.

(** The two options of the package. *)
Inductive setting :=
| SetDirectory (d : string)
| SetContext (c : ExecContext).

Definition option_of (s : setting) : @Option _ ClientHandle ExecContext :=
  match s with
  | SetDirectory d => Directory d
  | SetContext c => WithContext c
  end.

(** The directory named last, if any. *)
Definition last_directory (ss : list setting) : string :=
  foldl (λ d s, match s with SetDirectory d' => d' | SetContext _ => d end) "" ss.

(** The context given last, if any. *)
Definition last_context (background : ExecContext) (ss : list setting) : ExecContext :=
  foldl (λ c s, match s with SetContext c' => c' | SetDirectory _ => c end) background ss.

End construction_spec.

(** ** A concrete runtime, a scripted client and sample fixtures

    Stand-ins for the libraries, to run the model on concrete inputs: they
    agree with the Go libraries on the inputs used below. *)

Definition dquote : string := Eval cbv in String (Ascii.ascii_of_nat 34) "".

Inductive yaml_value :=
| VString (s : string)
| VInt (z : Z)
| VBool (b : bool)
| VNull.

(** The [%v] verb on the values above. *)
Definition sprint_value (v : yaml_value) : string :=
  match v with
  | VString s => s
  | VInt z => pretty z
  | VBool true => "true"
  | VBool false => "false"
  | VNull => "<nil>"
  end.

(** [strconv.Quote] on printable ASCII without quotes or backslashes. *)
Definition quote_plain (s : string) : string := dquote +:+ s +:+ dquote.

Definition users_yml : string := "[{_id: 7, name: Alice}, {name: Bob}]".
Definition electronics_yaml : string := "[{_id: p1, title: Phone}, {_id: p2, title: Laptop}]".
Definition books_yml : string := "[{_id: p3, title: Go Programming}]".
Definition broken_yml : string := "not: [valid: yaml".

(** A decoder that knows the sample documents. *)
Definition sample_Unmarshal (data : string) : result (list (gmap string yaml_value)) :=
  if decide (data = users_yml)
  then Ok [ <["_id" := VInt 7]> {["name" := VString "Alice"]};
            {["name" := VString "Bob"]} ]
  else if decide (data = electronics_yaml)
  then Ok [ <["_id" := VString "p1"]> {["title" := VString "Phone"]};
            <["_id" := VString "p2"]> {["title" := VString "Laptop"]} ]
  else if decide (data = books_yml)
  then Ok [ <["_id" := VString "p3"]> {["title" := VString "Go Programming"]} ]
  else Err (Errorf "yaml: line 1: did not find expected ',' or ']'").

Definition render_value (v : yaml_value) : string :=
  match v with
  | VString s => quote_plain s
  | VNull => "null"
  | other => sprint_value other
  end.

(** A JSON object, keys in sorted order. *)
Definition render_object {A} (render : A → string) (m : gmap string A) : string :=
  "{" +:+ strings_Join
            ((λ kv, quote_plain kv.1 +:+ ":" +:+ render kv.2)
               <$> merge_sort (λ a b, String.le a.1 b.1) (map_to_list m)) ","
      +:+ "}".

Definition sample_runtime : GoRuntime := {|
  value := yaml_value;
  fmt_v := sprint_value;
  strconv_Quote := quote_plain;
  json_Valid := λ data, String.prefix "{" data;
  yaml_Unmarshal := sample_Unmarshal;
  json_Marshal_doc := λ m, Ok (render_object render_value m);
  json_Marshal_raw := λ m, Ok (render_object id m);
|}.

Definition sample_users : node :=
  Dir [ ("docs.yml", File users_yml);
        ("_settings.json", File "{}");
        ("_mapping.json", File "{}") ].

Definition sample_products : node :=
  Dir [ ("notes.txt", File "not a fixture");
        ("_mapping.json", File "{}");
        ("002_books.yml", File books_yml);
        ("archive.yml", Dir []);
        ("001_electronics.yaml", File electronics_yaml) ].

Definition sample_root : list DirEntry :=
  [ ("users", sample_users); ("README.md", File "fixtures"); ("products", sample_products) ].

Definition broken_root : list DirEntry :=
  [ ("users", Dir [ ("docs.yml", File broken_yml) ]) ].

(** A client that answers from a script; once the script is used up every
    request succeeds. *)
Inductive answer :=
| Respond (r : result Response)
| Accept (fs : list Failure) (r : result unit).

Record Script := {
  pending : list answer;
  numFailed : N;
}.

Definition ok200 : Response :=
  {| StatusCode := 200; Status := "200 OK"; ResponseBody := "{}" |}.

Definition error500 : Response :=
  {| StatusCode := 500; Status := "500 Internal Server Error"; ResponseBody := "boom" |}.

Definition next_response (w : Script) : result Response * Script :=
  match pending w with
  | Respond r :: rest => (r, {| pending := rest; numFailed := numFailed w |})
  | _ :: rest => (Ok ok200, {| pending := rest; numFailed := numFailed w |})
  | [] => (Ok ok200, w)
  end.

Definition next_accept (w : Script) : (list Failure * result unit) * Script :=
  match pending w with
  | Accept fs r :: rest =>
      ((fs, r), {| pending := rest; numFailed := numFailed w + N.of_nat (length fs) |})
  | _ :: rest => (([], Ok tt), {| pending := rest; numFailed := numFailed w |})
  | [] => (([], Ok tt), w)
  end.

Definition scripted_client : Client Script := {|
  Indices_Delete := λ _ _, next_response;
  Indices_Create := λ _ _, next_response;
  Indices_Refresh := λ _, next_response;
  NewBulkIndexer := λ _ w, let (a, w') := next_accept w in (a.2, w');
  Indexer_Add := λ _, next_accept;
  Indexer_Close := next_accept;
  Stats_NumFailed := numFailed;
|}.

Definition start (answers : list answer) : @St Script :=
  {| world := {| pending := answers; numFailed := 0 |}; trace := [] |}.

Definition conflict : Failure :=
  {| fail_Status := 409; fail_Type := "version_conflict_engine_exception";
     fail_Reason := "document already exists"; fail_err := None |}.

Definition too_large : Failure :=
  {| fail_Status := 0; fail_Type := ""; fail_Reason := "";
     fail_err := Some (Errorf "flush: request entity too large") |}.

(** [sample_root] as another file system could list it. *)
Definition relisted_root : list DirEntry :=
  [ ("README.md", File "fixtures");
    ("users", sample_users);
    ("products",
     Dir [ ("001_electronics.yaml", File electronics_yaml);
           ("002_books.yml", File books_yml);
           ("_mapping.json", File "{}");
           ("archive.yml", Dir []);
           ("notes.txt", File "not a fixture") ]) ].

Definition users_raw : list (gmap string yaml_value) :=
  [ <["_id" := VInt 7]> {["name" := VString "Alice"]};
    {["name" := VString "Bob"]} ].

Definition broken_cause : error :=
  Errorf "yaml: line 1: did not find expected ',' or ']'".

Section samples.
#[local] Existing Instance sample_runtime.
#[local] Existing Instance scripted_client.

Definition sample_fixtures : result (list indexFixture) :=
  parseFixtures "fixtures" (inr (Dir sample_root)).

Definition users_docs : list document := fmap (M:=list) mkDocument users_raw.

Definition users_bodies : list string :=
  [ "{" +:+ quote_plain "name" +:+ ":" +:+ quote_plain "Alice" +:+ "}";
    "{" +:+ quote_plain "name" +:+ ":" +:+ quote_plain "Bob" +:+ "}" ].

(** The indexer reports a conflict for the first record and a failed flush
    when it is closed. *)
Definition failing_batch : St :=
  start [ Accept [] (Ok tt); Accept [conflict] (Ok tt); Accept [] (Ok tt);
          Accept [too_large] (Ok tt) ].

(** The store refuses to create the first index. *)
Definition failing_create : St :=
  start [ Respond (Ok ok200); Respond (Ok error500) ].

End samples.

(** A collection whose schema files do not hold JSON. *)
Definition bad_schema_dir : list DirEntry :=
  [ ("docs.yml", File users_yml);
    ("_mapping.json", File "not json");
    ("_settings.json", File "neither") ].

(** A file system that holds [sample_root] at [fixtures] and nothing else. *)
Definition sample_fs (path : string) : errno + node :=
  if decide (path = "fixtures") then inr (Dir sample_root) else inl ENOENT.

(** A runtime whose values include a number that JSON cannot encode. *)
Inductive number_value :=
| Finite (z : Z)
| NaN.

Global Instance number_value_eq_dec : EqDecision number_value.
Proof. solve_decision. Defined.

Definition render_number (v : number_value) : string :=
  match v with
  | Finite z => pretty z
  | NaN => "NaN"
  end.

Definition number_runtime : GoRuntime := {|
  value := number_value;
  fmt_v := render_number;
  strconv_Quote := quote_plain;
  json_Valid := λ data, String.prefix "{" data;
  yaml_Unmarshal := λ data,
    if decide (data = "[{score: 3}, {score: .nan}]")
    then Ok [ {["score" := Finite 3]}; {["score" := NaN]} ]
    else Err (Errorf "yaml: line 1: did not find expected ',' or ']'");
  json_Marshal_doc := λ m,
    if decide (NaN ∈ (map_to_list m).*2)
    then Err (Errorf "json: unsupported value: NaN")
    else Ok (render_object render_number m);
  json_Marshal_raw := λ m, Ok (render_object id m);
|}.

Definition scored : @document number_runtime :=
  {| ID := "1"; Body := {["score" := Finite 3]} |}.

Definition unscored : @document number_runtime :=
  {| ID := ""; Body := {["score" := NaN]} |}.

Definition scored_body : string := "{" +:+ quote_plain "score" +:+ ":3}".

Definition canceled : error := Errorf "context canceled".

(** Three records, the second of which does not encode. *)
Definition scores_docs : list (@document number_runtime) := [scored; unscored; scored].

Ltac well_formed_sample :=
  repeat first
    [ apply Forall_nil_2
    | apply Forall_cons_2
    | intros []
    | intros _
    | progress (eexists; split_and!; try reflexivity)
    | by eexists ].

(** * Properties *)

(** ** Strings *)

Lemma string_app_cons (x : Ascii.ascii) (a b : string) :
  String x a +:+ b = String x (a +:+ b).
Proof. reflexivity. Qed.

Lemma string_app_nil_l (a : string) : "" +:+ a = a.
Proof. reflexivity. Qed.

Lemma string_app_assoc (a b c : string) : (a +:+ b) +:+ c = a +:+ (b +:+ c).
Proof.
  induction a as [|x a IH]; [done|]. by rewrite !string_app_cons, IH.
Qed.

Lemma string_app_nil_r (a : string) : a +:+ "" = a.
Proof. induction a as [|x a IH]; [done|]. by rewrite string_app_cons, IH. Qed.

Lemma string_length_app (a b : string) :
  String.length (a +:+ b) = String.length a + String.length b.
Proof.
  induction a as [|x a IH]; [done|]. rewrite string_app_cons. simpl. by rewrite IH.
Qed.

Lemma substring_whole (s : string) : String.substring 0 (String.length s) s = s.
Proof. induction s as [|x s IH]; simpl; [done | by f_equal]. Qed.

Lemma substring_skip (p s : string) (m : nat) :
  String.substring (String.length p) m (p +:+ s) = String.substring 0 m s.
Proof. induction p as [|x p IH]; [done|]. rewrite string_app_cons. simpl. apply IH. Qed.

Lemma substring_split (s : string) (n : nat) :
  n ≤ String.length s →
  s = String.substring 0 n s +:+ String.substring n (String.length s - n) s.
Proof.
  revert n. induction s as [|x s IH]; intros [|n] Hn; simpl in *; try lia.
  - done.
  - by rewrite substring_whole.
  - rewrite string_app_cons. f_equal. apply IH. lia.
Qed.

Lemma HasSuffix_spec (s suf : string) :
  strings_HasSuffix s suf = true ↔ ∃ p, s = p +:+ suf.
Proof.
  unfold strings_HasSuffix. rewrite andb_true_iff, Nat.leb_le, String.eqb_eq. split.
  - intros [Hlen Hsub].
    exists (String.substring 0 (String.length s - String.length suf) s).
    etrans; [apply (substring_split s (String.length s - String.length suf)); lia|].
    f_equal.
    replace (String.length s - (String.length s - String.length suf))
      with (String.length suf) by lia.
    exact Hsub.
  - intros [p ->]. rewrite string_length_app. split; [lia|].
    replace (String.length p + String.length suf - String.length suf)
      with (String.length p) by lia.
    by rewrite substring_skip, substring_whole.
Qed.

Lemma HasPrefix_spec (s pre : string) :
  strings_HasPrefix s pre = true ↔ ∃ q, s = pre +:+ q.
Proof.
  unfold strings_HasPrefix. revert s.
  induction pre as [|x pre IH]; intros s; simpl.
  - split; [by exists s | by destruct s].
  - destruct s as [|y s]; simpl.
    + split; [done | by intros [q ?]].
    + setoid_rewrite string_app_cons.
      destruct (Ascii.ascii_dec x y) as [->|Hxy].
      * rewrite IH. split; intros [q Hq]; exists q; congruence.
      * split; [done | intros [q Hq]; congruence].
Qed.

Lemma is_substring_refl (s : string) : is_substring s s.
Proof. exists "", "". by rewrite string_app_nil_r. Qed.

Lemma is_substring_app_l (sub s pre : string) :
  is_substring sub s → is_substring sub (pre +:+ s).
Proof.
  intros (a & b & ->). exists (pre +:+ a), b. by rewrite string_app_assoc.
Qed.

Lemma is_substring_app_r (sub s post : string) :
  is_substring sub s → is_substring sub (s +:+ post).
Proof.
  intros (a & b & ->). exists a, (b +:+ post). by rewrite !string_app_assoc.
Qed.

(** Every element of a joined list occurs in the result. *)
Lemma is_substring_Join (sep x : string) (l : list string) :
  x ∈ l → is_substring x (strings_Join l sep).
Proof.
  unfold strings_Join. induction l as [|y l IH]; [by intros ?%elem_of_nil|].
  intros [->|Hx]%elem_of_cons; simpl.
  - destruct l; [apply is_substring_refl|].
    apply is_substring_app_r, is_substring_refl.
  - destruct l as [|z l]; [by apply elem_of_nil in Hx|].
    apply is_substring_app_l, is_substring_app_l. by apply IH.
Qed.

(** ** Results *)

Lemma rmapM_Ok {A B} (f : A → result B) (l : list A) (ys : list B) :
  rmapM f l = Ok ys ↔ Forall2 (λ x y, f x = Ok y) l ys.
Proof.
  revert ys. induction l as [|x l IH]; intros ys; simpl.
  - split; [intros [= <-]; constructor | by intros ->%Forall2_nil_inv_l].
  - split.
    + destruct (f x) as [y|] eqn:Hx; simpl; [|done].
      destruct (rmapM f l) as [ys'|] eqn:Hl; simpl; [|done].
      intros [= <-]. constructor; [done | by apply IH].
    + intros (y & ys' & Hx & Hl & ->)%Forall2_cons_inv_l.
      rewrite Hx. simpl. apply IH in Hl. by rewrite Hl.
Qed.

Lemma rmapM_length {A B} (f : A → result B) (l : list A) (ys : list B) :
  rmapM f l = Ok ys → length ys = length l.
Proof. intros Hl%rmapM_Ok. symmetry. by eapply Forall2_length. Qed.

(** [rmapM] fails exactly at the first element on which [f] fails. *)
Lemma rmapM_Err {A B} (f : A → result B) (l : list A) (err : error) :
  rmapM f l = Err err ↔
  ∃ pre x post, l = pre ++ x :: post ∧ Forall (λ y, is_Ok (f y)) pre ∧ f x = Err err.
Proof.
  induction l as [|x l IH]; simpl.
  - split; [done | intros (pre & y & post & Hl & _); by destruct pre].
  - split.
    + destruct (f x) as [y|e] eqn:Hx; simpl.
      * destruct (rmapM f l) as [ys|e] eqn:Hl; simpl; [done|].
        intros [= ->]. destruct (proj1 IH eq_refl) as (pre & z & post & -> & Hpre & Hz).
        exists (x :: pre), z, post. split_and!; [done | | done].
        constructor; [by exists y | done].
      * intros [= ->]. by exists [], x, l.
    + intros (pre & z & post & Hl & Hpre & Hz). destruct pre as [|p pre]; simplify_eq/=.
      * by rewrite Hz.
      * apply Forall_cons in Hpre as [[y Hy] Hpre]. rewrite Hy. simpl.
        assert (rmapM f (pre ++ z :: post) = Err err) as -> by (apply IH; eauto 10).
        done.
Qed.

Lemma rmapM_all_Ok {A B} (f : A → result B) (l : list A) :
  Forall (λ x, is_Ok (f x)) l → is_Ok (rmapM f l).
Proof.
  induction 1 as [|x l [y Hy] _ [ys Hys]]; simpl; [by exists []|].
  rewrite Hy, Hys. by exists (y :: ys).
Qed.

(** ** The parser's loops *)

Section parser_facts.
Context `{GoRuntime}.

Lemma is_record_source_spec (e : DirEntry) :
  is_record_source e = true ↔
  IsDir e = false
  ∧ ((∃ p, e.1 = p +:+ ".yml") ∨ (∃ p, e.1 = p +:+ ".yaml"))
  ∧ ¬ (∃ q, e.1 = "_" +:+ q).
Proof.
  unfold is_record_source.
  rewrite !andb_true_iff, orb_true_iff, !negb_true_iff, !HasSuffix_spec.
  rewrite <-(HasPrefix_spec e.1 "_"), not_true_iff_false. tauto.
Qed.

Lemma parseDocumentFiles_loop_spec (dir : string) (entries : list DirEntry)
    (docs : list document) :
  parseDocumentFiles_loop dir entries docs =
  rbind (rmapM (parse_source dir) (filter (λ e, is_record_source e) entries))
        (λ dss, Ok (docs ++ concat dss)).
Proof.
  revert docs. induction entries as [|e rest IH]; intros docs; simpl.
  { by rewrite app_nil_r. }
  destruct (is_record_source e) eqn:Hsrc.
  - rewrite filter_cons_True by (by apply Is_true_true). simpl.
    unfold is_record_source in Hsrc.
    apply andb_true_iff in Hsrc as [[Hdir%negb_true_iff Hsuf]%andb_true_iff Hpre%negb_true_iff].
    rewrite Hdir, <-negb_orb, Hsuf, Hpre. simpl.
    unfold parse_source at 1.
    destruct (parseYAMLDocuments _ _) as [fileDocs|err]; simpl; [|done].
    rewrite IH. destruct (rmapM _ _) as [dss|]; simpl; [|done].
    by rewrite app_assoc.
  - rewrite filter_cons_False by (by apply Is_true_false). simpl.
    unfold is_record_source in Hsrc. rewrite <-negb_orb.
    destruct (IsDir e); [apply IH|].
    destruct (_ || _); simpl in *; [|apply IH].
    destruct (strings_HasPrefix _ _); [apply IH | done].
Qed.

Lemma parseDocumentFiles_spec (dir : string) (es : list DirEntry) :
  parseDocumentFiles dir (inr (Dir es)) =
  rbind (rmapM (parse_source dir) (record_sources es)) (λ dss, Ok (concat dss)).
Proof. unfold parseDocumentFiles. simpl. apply parseDocumentFiles_loop_spec. Qed.

Lemma parseFixtures_loop_spec (dir : string) (entries : list DirEntry)
    (fixtures : list indexFixture) :
  parseFixtures_loop dir entries fixtures =
  rbind (rmapM (parse_collection dir) (filter (λ e, IsDir e) entries))
        (λ fs, Ok (fixtures ++ fs)).
Proof.
  revert fixtures. induction entries as [|e rest IH]; intros fixtures; simpl.
  { by rewrite app_nil_r. }
  destruct (IsDir e) eqn:Hdir; simpl.
  - rewrite filter_cons_True by (by apply Is_true_true). simpl.
    unfold parse_collection at 1.
    destruct (parseIndexDir _ _ _) as [f|err]; simpl; [|done].
    rewrite IH. destruct (rmapM _ _) as [fs|]; simpl; [|done].
    by rewrite <-app_assoc.
  - rewrite filter_cons_False by (by apply Is_true_false). apply IH.
Qed.

Lemma parseFixtures_spec (dir : string) (es : list DirEntry) :
  parseFixtures dir (inr (Dir es)) =
  match rmapM (parse_collection dir) (collection_dirs es) with
  | Err err => Err err
  | Ok fixtures =>
      if decide (length fixtures = 0) then Err (EmptyFixtureSet dir) else Ok fixtures
  end.
Proof.
  unfold parseFixtures. simpl. rewrite parseFixtures_loop_spec.
  fold (collection_dirs es). by destruct (rmapM _ _).
Qed.

End parser_facts.

(** ** Records and record sources *)

Section parser_claims.
Context `{GoRuntime}.

Lemma mkDocument_record_of (raw : gmap string value) : record_of raw (mkDocument raw).
Proof.
  unfold record_of, mkDocument. destruct (raw !! "_id") as [id|] eqn:Hid; simpl.
  - split_and!; [done | done | apply lookup_delete_eq].
  - done.
Qed.

(** C6: every record object that carries the key [_id] becomes a record
    whose id is the string form of that value and whose body is the object
    without [_id] (so the body never holds [_id]); a record object without
    [_id] becomes a record with an empty id and the unchanged object as
    body. This holds for every object of every record source that decodes. *)
Theorem parseYAMLDocuments_records (path data : string)
    (rawDocs : list (gmap string value)) :
  yaml_Unmarshal data = Ok rawDocs →
  ∃ docs, parseYAMLDocuments path (inr (File data)) = Ok docs
          ∧ Forall2 record_of rawDocs docs
          ∧ Forall (λ doc, Body doc !! "_id" = None) docs.
Proof.
  intros Hdata. exists (mkDocument <$> rawDocs).
  unfold parseYAMLDocuments. simpl. rewrite Hdata. split_and!; [done | |].
  - apply Forall2_fmap_r, Forall_Forall2_diag, Forall_forall.
    intros raw _. apply mkDocument_record_of.
  - apply Forall_fmap, Forall_forall. intros raw _. simpl.
    pose proof (mkDocument_record_of raw) as Hrec. unfold record_of in Hrec.
    destruct (raw !! "_id") eqn:Hid; [by destruct Hrec as (_ & _ & ?)|].
    destruct Hrec as [_ ->]. done.
Qed.

Lemma elem_of_record_sources (es : list DirEntry) (e : DirEntry) :
  e ∈ record_sources es ↔ e ∈ es ∧ is_record_source e = true.
Proof.
  unfold record_sources. rewrite list_elem_of_filter, merge_sort_Permutation.
  rewrite Is_true_true. tauto.
Qed.

Lemma elem_of_collection_dirs (es : list DirEntry) (e : DirEntry) :
  e ∈ collection_dirs es ↔ e ∈ es ∧ IsDir e = true.
Proof.
  unfold collection_dirs. rewrite list_elem_of_filter, merge_sort_Permutation.
  rewrite Is_true_true. tauto.
Qed.

Lemma StronglySorted_filter {A} (R : relation A) (P : A → Prop)
    `{∀ x, Decision (P x)} (l : list A) :
  StronglySorted R l → StronglySorted R (filter P l).
Proof.
  induction 1 as [|x l Hl IH Hx]; [constructor|].
  rewrite filter_cons. destruct (decide (P x)); [|done].
  constructor; [done|]. rewrite Forall_forall in Hx |- *.
  intros y [_ Hy]%list_elem_of_filter. by apply Hx.
Qed.

Lemma Sorted_filter_entries (P : DirEntry → Prop) `{∀ e, Decision (P e)}
    (es : list DirEntry) :
  Sorted entry_le (filter P (merge_sort entry_le es)).
Proof.
  apply StronglySorted_Sorted, StronglySorted_filter, StronglySorted_merge_sort; apply _.
Qed.

(** C8: the record sources of a collection directory are exactly the
    entries directly inside it that are not directories, whose name ends in
    [.yml] or [.yaml] and does not start with [_]; they are taken in the
    order the directory is listed, and the records of the collection are the
    records of those files, concatenated in that order. *)
Theorem parseDocumentFiles_record_sources (dir : string) (es : list DirEntry) :
  (∀ e, e ∈ record_sources es ↔
        e ∈ es ∧ IsDir e = false
        ∧ ((∃ p, e.1 = p +:+ ".yml") ∨ (∃ p, e.1 = p +:+ ".yaml"))
        ∧ ¬ (∃ q, e.1 = "_" +:+ q))
  ∧ Sorted entry_le (record_sources es)
  ∧ parseDocumentFiles dir (inr (Dir es)) =
    rbind (rmapM (parse_source dir) (record_sources es)) (λ dss, Ok (concat dss)).
Proof.
  split_and!.
  - intros e. rewrite elem_of_record_sources, is_record_source_spec. tauto.
  - apply Sorted_filter_entries.
  - apply parseDocumentFiles_spec.
Qed.

End parser_claims.

(** ** Collections *)

Section collections.
Context `{GoRuntime}.

Lemma parseIndexDir_name (dir nm : string) (d : node) (f : indexFixture) :
  parseIndexDir dir nm d = Ok f → name f = nm.
Proof.
  unfold parseIndexDir. intros Hf.
  repeat match type of Hf with
         | context [match ?x with _ => _ end] => destruct x; simplify_eq/=
         end; done.
Qed.

Lemma parse_collection_name (dir : string) (e : DirEntry) (f : indexFixture) :
  parse_collection dir e = Ok f → name f = e.1.
Proof.
  unfold parse_collection. destruct (parseIndexDir _ _ _) eqn:Hf; [|done].
  intros [= <-]. by eapply parseIndexDir_name.
Qed.

Lemma read_schema_ok (path pre file : string) (es : list DirEntry) :
  schema_ok (find_entry file es) →
  is_Ok match readJSONFile path (resolve (Dir es) file) with
        | Err err => if negb (os_IsNotExist err) then Err (wrap pre err) else Ok None
        | Ok m => Ok (Some m)
        end.
Proof.
  unfold schema_ok, readJSONFile, resolve.
  destruct (find_entry file es) as [[data| |]|]; simpl; try done.
  - intros ->. simpl. by eexists.
  - intros _. by eexists.
Qed.

Lemma parse_source_ok (dir : string) (e : DirEntry) (data : string) :
  e.2 = File data → is_Ok (yaml_Unmarshal data) → is_Ok (parse_source dir e).
Proof.
  intros He [rawDocs Hraw]. unfold parse_source, parseYAMLDocuments.
  rewrite He. simpl. rewrite Hraw. by eexists.
Qed.

Lemma parseDocumentFiles_ok (dir : string) (es : list DirEntry) :
  records_ok es → is_Ok (parseDocumentFiles dir (inr (Dir es))).
Proof.
  intros Hes. rewrite parseDocumentFiles_spec.
  destruct (rmapM_all_Ok (parse_source dir) (record_sources es)) as [dss ->];
    [|by eexists].
  apply Forall_forall. intros e [He Hsrc]%elem_of_record_sources.
  unfold records_ok in Hes. rewrite Forall_forall in Hes.
  destruct (Hes e He) as (data & Hdata & Hyaml); [by apply Is_true_true|].
  by eapply parse_source_ok.
Qed.

Lemma parseIndexDir_well_formed (dir nm : string) (d : node) :
  well_formed_collection d → is_Ok (parseIndexDir dir nm d).
Proof.
  intros (es & -> & Hm & Hs & Hdocs). unfold parseIndexDir.
  destruct (read_schema_ok (filepath_Join dir mappingFile)
              ("reading " +:+ mappingFile +:+ ": ") _ _ Hm) as [m ->].
  destruct (read_schema_ok (filepath_Join dir settingsFile)
              ("reading " +:+ settingsFile +:+ ": ") _ _ Hs) as [s ->].
  destruct (parseDocumentFiles_ok dir es Hdocs) as [docs ->]. by eexists.
Qed.

Lemma collection_dirs_length (es : list DirEntry) :
  length (collection_dirs es) = length (filter (λ e, IsDir e) es).
Proof.
  unfold collection_dirs. apply Permutation_length.
  by rewrite merge_sort_Permutation.
Qed.

Lemma parseFixtures_names (dir : string) (es : list DirEntry)
    (fixtures : list indexFixture) :
  parseFixtures dir (inr (Dir es)) = Ok fixtures →
  Forall2 (λ e f, parse_collection dir e = Ok f) (collection_dirs es) fixtures
  ∧ name <$> fixtures = (collection_dirs es).*1
  ∧ fixtures ≠ [].
Proof.
  rewrite parseFixtures_spec. intros Hfs.
  destruct (rmapM _ _) as [fs|] eqn:Hmap; [|done].
  destruct (decide (length fs = 0)) as [|Hne]; simplify_eq.
  apply rmapM_Ok in Hmap. split_and!; [done | | by intros ->].
  clear Hne. induction Hmap as [|e f l fs' Hf _ IH]; [done|].
  csimpl. f_equal; [by eapply parse_collection_name | done].
Qed.

(** C7: a root with [N] immediate subdirectories parses into exactly [N]
    collection fixtures, named after those subdirectories (entries of the
    root that are not directories are ignored); such a parse succeeds when
    every subdirectory is well formed; and when [N] is zero the parse fails
    with the empty-fixture-set error instead of returning an empty set. *)
Theorem parseFixtures_collections (dir : string) (es : list DirEntry) (N : nat) :
  length (filter (λ e, IsDir e) es) = N →
  (N = 0 → parseFixtures dir (inr (Dir es)) = Err (EmptyFixtureSet dir))
  ∧ (∀ fixtures,
       parseFixtures dir (inr (Dir es)) = Ok fixtures →
       length fixtures = N ∧ 0 < N
       ∧ name <$> fixtures = (collection_dirs es).*1
       ∧ name <$> fixtures ≡ₚ (filter (λ e, IsDir e) es).*1)
  ∧ (0 < N →
     Forall (λ e, IsDir e → well_formed_collection e.2) es →
     is_Ok (parseFixtures dir (inr (Dir es)))).
Proof.
  intros HN. rewrite <-collection_dirs_length in HN. rewrite parseFixtures_spec.
  split_and!.
  - intros ->. apply nil_length_inv in HN. by rewrite HN.
  - intros fixtures Hfs. rewrite <-parseFixtures_spec in Hfs.
    destruct (parseFixtures_names _ _ _ Hfs) as (Hall & Hnames & Hne).
    apply Forall2_length in Hall.
    split_and!; [lia | | done |].
    + destruct fixtures; [done | simpl in *; lia].
    + rewrite Hnames. unfold collection_dirs. by rewrite merge_sort_Permutation.
  - intros Hpos Hwf.
    destruct (rmapM_all_Ok (parse_collection dir) (collection_dirs es)) as [fs Hfs].
    { apply Forall_forall. intros e [He Hdir]%elem_of_collection_dirs.
      rewrite Forall_forall in Hwf.
      destruct (parseIndexDir_well_formed (filepath_Join dir e.1) e.1 e.2) as [f Hf].
      { apply Hwf; [done | by apply Is_true_true]. }
      unfold parse_collection. rewrite Hf. by eexists. }
    rewrite Hfs. pose proof (rmapM_length _ _ _ Hfs).
    destruct (decide (length fs = 0)); [lia | by eexists].
Qed.

End collections.

(** ** Malformed record sources *)

Lemma contains_unfold (sub s : string) :
  contains sub s =
  String.prefix sub s
  || match s with
     | EmptyString => false
     | String _ s' => contains sub s'
     end.
Proof. by destruct s. Qed.

Lemma is_substring_contains (sub s : string) :
  is_substring sub s → contains sub s = true.
Proof.
  intros (pre & post & ->). induction pre as [|x pre IH].
  - rewrite string_app_nil_l.
    assert (String.prefix sub (sub +:+ post) = true) as Hp
      by (apply (HasPrefix_spec (sub +:+ post) sub); by exists post).
    rewrite contains_unfold. by rewrite Hp.
  - rewrite string_app_cons, contains_unfold, IH. apply orb_true_r.
Qed.

Section malformed.
Context `{GoRuntime}.

Lemma rmapM_Ok_elem {A B} (f : A → result B) (l : list A) (ys : list B) (x : A) :
  rmapM f l = Ok ys → x ∈ l → is_Ok (f x).
Proof.
  intros Hl%rmapM_Ok Hx. induction Hl as [|a y l ys' Ha _ IH]; [by apply elem_of_nil in Hx|].
  apply elem_of_cons in Hx as [->|Hx]; [by exists y | by apply IH].
Qed.

Lemma parseIndexDir_Ok_documents (dir nm : string) (d : node) (f : indexFixture) :
  parseIndexDir dir nm d = Ok f → parseDocumentFiles dir (inr d) = Ok (documents f).
Proof.
  unfold parseIndexDir. intros Hf.
  repeat match type of Hf with
         | context [match ?x with _ => _ end] => destruct x eqn:?; simplify_eq/=
         end; done.
Qed.

Lemma parse_source_malformed (dir : string) (e : DirEntry) (data : string) (cause : error) :
  e.2 = File data → yaml_Unmarshal data = Err cause →
  parse_source dir e =
  Err (wrap ("parsing document file " +:+ strconv_Quote e.1 +:+ ": ")
         (wrap "unmarshaling YAML: " cause)).
Proof.
  intros He Hdata. unfold parse_source, parseYAMLDocuments.
  rewrite He. simpl. by rewrite Hdata.
Qed.

Lemma parseIndexDir_schema_ok (dir nm : string) (des : list DirEntry) :
  schema_ok (find_entry mappingFile des) →
  schema_ok (find_entry settingsFile des) →
  ∀ err, parseDocumentFiles dir (inr (Dir des)) = Err err →
         parseIndexDir dir nm (Dir des) = Err err.
Proof.
  intros Hm Hs err Hdocs. unfold parseIndexDir.
  destruct (read_schema_ok (filepath_Join dir mappingFile)
              ("reading " +:+ mappingFile +:+ ": ") _ _ Hm) as [m ->].
  destruct (read_schema_ok (filepath_Join dir settingsFile)
              ("reading " +:+ settingsFile +:+ ": ") _ _ Hs) as [s ->].
  by rewrite Hdocs.
Qed.

(** C9, as amended: a record source whose content does not decode as a
    sequence of mappings makes the whole parse fail, so that no fixture set,
    partial or not, is returned; when it is the first failure met, the
    error is the malformed-records error, which names the collection by its
    directory name and the file by its file name. *)
Theorem malformed_records_abort (dir : string) (es des : list DirEntry)
    (d e : DirEntry) (data : string) (cause : error) :
  d ∈ es → d.2 = Dir des →
  e ∈ des → is_record_source e = true → e.2 = File data →
  yaml_Unmarshal data = Err cause →
  (∃ err, parseFixtures dir (inr (Dir es)) = Err err)
  ∧ (∀ pre post fpre fpost,
       collection_dirs es = pre ++ d :: post →
       Forall (λ x, is_Ok (parse_collection dir x)) pre →
       schema_ok (find_entry mappingFile des) →
       schema_ok (find_entry settingsFile des) →
       record_sources des = fpre ++ e :: fpost →
       Forall (λ x, is_Ok (parse_source (filepath_Join dir d.1) x)) fpre →
       parseFixtures dir (inr (Dir es)) = Err (MalformedRecords d.1 e.1 cause))
  ∧ is_substring (strconv_Quote d.1) (Error (MalformedRecords d.1 e.1 cause))
  ∧ is_substring (strconv_Quote e.1) (Error (MalformedRecords d.1 e.1 cause)).
Proof.
  intros Hd Hdes He Hsrc Hfile Hdata. split_and!.
  - destruct (parseFixtures dir (inr (Dir es))) as [fixtures|err] eqn:Hparse;
      [exfalso | by eexists].
    rewrite parseFixtures_spec in Hparse.
    destruct (rmapM _ (collection_dirs es)) as [fs|] eqn:Hfs; [|done].
    destruct (rmapM_Ok_elem _ _ _ d Hfs) as [f Hf].
    { apply elem_of_collection_dirs. split; [done|]. unfold IsDir. by rewrite Hdes. }
    unfold parse_collection in Hf.
    destruct (parseIndexDir _ _ _) as [f'|] eqn:Hidx; [|done].
    apply parseIndexDir_Ok_documents in Hidx.
    rewrite Hdes, parseDocumentFiles_spec in Hidx.
    destruct (rmapM _ (record_sources des)) as [dss|] eqn:Hdss; [|done].
    destruct (rmapM_Ok_elem _ _ _ e Hdss) as [docs Hdocs].
    { by apply elem_of_record_sources. }
    by erewrite parse_source_malformed in Hdocs.
  - intros pre post fpre fpost Hdirs Hpre Hm Hs Hsrcs Hfpre.
    rewrite parseFixtures_spec.
    assert (rmapM (parse_collection dir) (collection_dirs es)
            = Err (MalformedRecords d.1 e.1 cause)) as ->; [|done].
    apply rmapM_Err. exists pre, d, post. split_and!; [done..|].
    unfold parse_collection. rewrite Hdes.
    erewrite parseIndexDir_schema_ok; [| done | done |].
    2:{ rewrite parseDocumentFiles_spec.
        assert (rmapM (parse_source (filepath_Join dir d.1)) (record_sources des)
                = Err (wrap ("parsing document file " +:+ strconv_Quote e.1 +:+ ": ")
                         (wrap "unmarshaling YAML: " cause))) as ->; [|done].
        apply rmapM_Err. exists fpre, e, fpost. split_and!; [done..|].
        by eapply parse_source_malformed. }
    unfold wrap, MalformedRecords. simpl. by rewrite !string_app_assoc.
  - unfold MalformedRecords. simpl.
    apply is_substring_app_l, is_substring_app_r, is_substring_refl.
  - unfold MalformedRecords. simpl.
    do 4 apply is_substring_app_l. apply is_substring_app_r, is_substring_refl.
Qed.

End malformed.

(** ** Order of the entries *)

Lemma entry_unique (l : list DirEntry) (x y : DirEntry) :
  NoDup l.*1 → x ∈ l → y ∈ l → x.1 = y.1 → x = y.
Proof.
  induction l as [|z l IH]; simpl; [by intros _ ?%elem_of_nil|].
  intros [Hz Hl]%NoDup_cons [->|Hx]%elem_of_cons [->|Hy]%elem_of_cons Hxy.
  - done.
  - destruct Hz. rewrite Hxy. by apply list_elem_of_fmap_2.
  - destruct Hz. rewrite <-Hxy. by apply list_elem_of_fmap_2.
  - by apply IH.
Qed.

Lemma sorted_entries_unique (l1 l2 : list DirEntry) :
  NoDup l1.*1 → Sorted entry_le l1 → Sorted entry_le l2 → l1 ≡ₚ l2 → l1 = l2.
Proof.
  intros Hnd Hl1 Hl2 Hperm. apply (Sorted_unique_strong entry_le); [|done..].
  intros x y Hx Hy Hxy Hyx. rewrite <-Hperm in Hy.
  apply (entry_unique l1); [done..|]. by apply (anti_symm String.le).
Qed.

Lemma merge_sort_listing (l1 l2 : list DirEntry) :
  NoDup l1.*1 → l1 ≡ₚ l2 → merge_sort entry_le l1 = merge_sort entry_le l2.
Proof.
  intros Hnd Hperm. apply sorted_entries_unique.
  - by rewrite merge_sort_Permutation.
  - apply Sorted_merge_sort, _.
  - apply Sorted_merge_sort, _.
  - by rewrite !merge_sort_Permutation.
Qed.

Lemma find_entry_Some (n : string) (l : list DirEntry) (x : node) :
  find_entry n l = Some x → (n, x) ∈ l.
Proof.
  induction l as [|[m y] l IH]; simpl; [done|].
  case_decide; simplify_eq/=; [intros [= ->]; left | right; by apply IH].
Qed.

Lemma find_entry_None (n : string) (l : list DirEntry) :
  find_entry n l = None → n ∉ l.*1.
Proof.
  induction l as [|[m y] l IH]; simpl; [intros _ ?%elem_of_nil; done|].
  case_decide; simplify_eq/=; [done|].
  intros Hl [?|?]%elem_of_cons; [done | by apply IH].
Qed.

Lemma find_entry_listing (n : string) (l1 l2 : list DirEntry) :
  NoDup l1.*1 → l1 ≡ₚ l2 → find_entry n l1 = find_entry n l2.
Proof.
  intros Hnd Hperm.
  destruct (find_entry n l1) as [x|] eqn:H1, (find_entry n l2) as [y|] eqn:H2; [| | |done].
  - apply find_entry_Some in H1, H2. rewrite <-Hperm in H2.
    by pose proof (entry_unique l1 (n, x) (n, y) Hnd H1 H2 eq_refl) as [= ->].
  - apply find_entry_Some in H1. apply find_entry_None in H2.
    destruct H2. rewrite <-Hperm. by apply (list_elem_of_fmap_2 fst _ (n, x)).
  - apply find_entry_Some in H2. apply find_entry_None in H1.
    destruct H1. rewrite Hperm. by apply (list_elem_of_fmap_2 fst _ (n, y)).
Qed.

Lemma canon_entry_fst (l : list DirEntry) : (canon_entry <$> l).*1 = l.*1.
Proof. induction l as [|e l IH]; csimpl; [done | by f_equal]. Qed.

Lemma IsDir_canon_entry (e : DirEntry) : IsDir (canon_entry e) = IsDir e.
Proof. unfold IsDir, canon_entry. simpl. by destruct e.2. Qed.

Lemma filter_IsDir_canon (l : list DirEntry) :
  canon_entry <$> filter (λ e, IsDir e) l = filter (λ e, IsDir e) (canon_entry <$> l).
Proof.
  induction l as [|e l IH]; [done|].
  rewrite fmap_cons, !filter_cons, IsDir_canon_entry.
  destruct (decide (IsDir e)); [rewrite fmap_cons|]; by rewrite IH.
Qed.

Lemma merge_sort_canon (l : list DirEntry) :
  NoDup l.*1 →
  canon_entry <$> merge_sort entry_le l = merge_sort entry_le (canon_entry <$> l).
Proof.
  intros Hnd. apply sorted_entries_unique.
  - by rewrite canon_entry_fst, merge_sort_Permutation.
  - apply (Sorted_fmap _ entry_le); [by intros [] []|]. apply Sorted_merge_sort, _.
  - apply Sorted_merge_sort, _.
  - by rewrite !merge_sort_Permutation.
Qed.

Section ordering.
Context `{GoRuntime}.

Lemma parseIndexDir_listing (dir nm : string) (des des' : list DirEntry) :
  NoDup des.*1 → des ≡ₚ des' →
  parseIndexDir dir nm (Dir des) = parseIndexDir dir nm (Dir des').
Proof.
  intros Hnd Hperm.
  assert (∀ n, resolve (Dir des) n = resolve (Dir des') n) as Hres.
  { intros n. unfold resolve. by rewrite (find_entry_listing n des des'). }
  assert (parseDocumentFiles dir (inr (Dir des)) = parseDocumentFiles dir (inr (Dir des')))
    as Hdocs.
  { rewrite !parseDocumentFiles_spec. unfold record_sources.
    by rewrite (merge_sort_listing des des'). }
  unfold parseIndexDir. by rewrite !Hres, Hdocs.
Qed.

Lemma parse_collection_canon (dir : string) (e : DirEntry) :
  match e.2 with Dir des => NoDup des.*1 | _ => True end →
  parse_collection dir (canon_entry e) = parse_collection dir e.
Proof.
  destruct e as [nm [data|des|b]]; simpl; [done| |done].
  intros Hnd. unfold parse_collection, canon_entry. simpl.
  rewrite (parseIndexDir_listing _ _ des (merge_sort entry_le des)); [done..|].
  by rewrite merge_sort_Permutation.
Qed.

Lemma rmapM_parse_collection_canon (dir : string) (l : list DirEntry) :
  Forall (λ e, match e.2 with Dir des => NoDup des.*1 | _ => True end) l →
  rmapM (parse_collection dir) (canon_entry <$> l) = rmapM (parse_collection dir) l.
Proof.
  induction 1 as [|e l He _ IH]; csimpl; [done|].
  by rewrite parse_collection_canon, IH.
Qed.

Lemma names_unique_same_tree (es es' : list DirEntry) :
  names_unique es → same_tree es es' → names_unique es'.
Proof.
  intros [Hnd Hsub] Htree. unfold same_tree in Htree. split.
  - rewrite <-(canon_entry_fst es'), <-Htree, canon_entry_fst. done.
  - apply Forall_forall. intros e' He'.
    assert (canon_entry e' ∈ canon_entry <$> es) as (e & Hee' & He)%list_elem_of_fmap.
    { rewrite Htree. by apply list_elem_of_fmap_2. }
    rewrite Forall_forall in Hsub. specialize (Hsub e He).
    destruct e' as [n' [|des'|]]; simpl; [done| |done].
    destruct e as [n [|des|]]; unfold canon_entry in Hee'; simpl in *;
      [done| |done].
    injection Hee' as _ Hsort.
    assert (des ≡ₚ des') as <-; [|done].
    by rewrite <-(merge_sort_Permutation entry_le des),
               <-(merge_sort_Permutation entry_le des'), Hsort.
Qed.

Lemma collection_dirs_same_tree (dir : string) (es es' : list DirEntry) :
  names_unique es → same_tree es es' →
  rmapM (parse_collection dir) (collection_dirs es')
  = rmapM (parse_collection dir) (collection_dirs es).
Proof.
  intros Hes Htree. pose proof (names_unique_same_tree _ _ Hes Htree) as Hes'.
  assert (∀ l, names_unique l →
    rmapM (parse_collection dir) (collection_dirs l)
    = rmapM (parse_collection dir)
        (filter (λ e, IsDir e) (merge_sort entry_le (canon_entry <$> l)))) as Hcanon.
  { intros l [Hnd Hsub]. rewrite <-merge_sort_canon, <-filter_IsDir_canon by done.
    symmetry. apply rmapM_parse_collection_canon.
    rewrite Forall_forall in Hsub |- *.
    intros e [He _]%elem_of_collection_dirs. by apply Hsub. }
  rewrite (Hcanon es), (Hcanon es') by done.
  f_equal. f_equal. apply merge_sort_listing; [|done].
  rewrite canon_entry_fst. apply Hes'.
Qed.

Lemma parse_collection_documents (dir : string) (e : DirEntry) (f : indexFixture) :
  parse_collection dir e = Ok f →
  ∃ des dss, e.2 = Dir des
             ∧ rmapM (parse_source (filepath_Join dir e.1)) (record_sources des) = Ok dss
             ∧ documents f = concat dss.
Proof.
  unfold parse_collection. destruct (parseIndexDir _ _ _) as [f'|] eqn:Hf; [|done].
  intros [= ->]. apply parseIndexDir_Ok_documents in Hf.
  destruct e.2 as [data|des|b]; [done| |done].
  rewrite parseDocumentFiles_spec in Hf.
  destruct (rmapM _ _) as [dss|] eqn:Hdss; simplify_eq/=. by exists des, dss.
Qed.

(** C10: the collection fixtures of a parsed fixture set appear in
    lexicographic order of directory name, the records of each collection
    are those of its record sources taken in lexicographic order of file
    name, and the result of a parse does not depend on the order in which
    the directories store their entries: two parses of the same tree give
    the same result, order included. *)
Theorem parseFixtures_reproducible (dir : string) (es : list DirEntry) :
  (∀ fixtures,
     parseFixtures dir (inr (Dir es)) = Ok fixtures →
     Sorted String.le (name <$> fixtures)
     ∧ Forall2 (λ d f, ∃ des dss,
                  d.2 = Dir des
                  ∧ Sorted String.le (record_sources des).*1
                  ∧ rmapM (parse_source (filepath_Join dir d.1)) (record_sources des)
                    = Ok dss
                  ∧ documents f = concat dss)
         (collection_dirs es) fixtures)
  ∧ (∀ es', names_unique es → same_tree es es' →
            parseFixtures dir (inr (Dir es')) = parseFixtures dir (inr (Dir es))).
Proof.
  split.
  - intros fixtures Hparse.
    destruct (parseFixtures_names _ _ _ Hparse) as (Hfs & -> & _).
    split.
    { apply (Sorted_fmap _ entry_le); [done|]. apply Sorted_filter_entries. }
    eapply Forall2_impl; [done|]. intros d f Hf. simpl in Hf.
    destruct (parse_collection_documents _ _ _ Hf) as (des & dss & ? & ? & ?).
    exists des, dss. split_and!; [done| |done..].
    apply (Sorted_fmap _ entry_le); [done|]. apply Sorted_filter_entries.
  - intros es' Hes Htree. rewrite !parseFixtures_spec.
    by rewrite (collection_dirs_same_tree dir es es').
Qed.

End ordering.

(** ** The Loader *)

Section loader_facts.
Context `{GoRuntime} {World : Type} `{Client World}.

Lemma deleteIndex_trace (nm : string) (st : St) :
  trace (deleteIndex nm st).2 = trace st ++ [CallDelete [nm] true].
Proof.
  unfold deleteIndex, request. destruct (Indices_Delete _ _ _) as [[res|err] w]; simpl.
  - by destruct (checkResponse res).
  - done.
Qed.

(** C1: [Load] runs, for the collections in the order of the fixture set,
    the phases delete, create, populate and activate in that order; if all
    of them succeed it succeeds, and otherwise it returns the error of the
    first phase that fails, leaving the store, and the requests sent to it,
    exactly as that phase left them: no request is sent afterwards, neither
    for that collection nor for the remaining ones. *)
Theorem Load_first_failure (fixtures : list indexFixture) (st : St) :
  match Load fixtures st with
  | (Ok _, st') => steps_ok (plan fixtures) st st'
  | (Err err, st') =>
      ∃ done step rest st1 cause,
        plan fixtures = done ++ step :: rest
        ∧ steps_ok done st st1
        ∧ run_phase step st1 = (Err cause, st')
        ∧ err = wrap "testfixtures: " cause
  end.
Proof.
  revert st. induction fixtures as [|f rest IH]; intros st; simpl.
  { constructor. }
  destruct (deleteIndex (name f) st) as [[[]|e1] st1] eqn:H1.
  2:{ exists [], (f, Delete), ((f, Create) :: (f, Populate) :: (f, Activate) :: plan rest), st, e1.
      split_and!; [done | constructor | done | done]. }
  destruct (createIndex (name f) (mapping f) (settings f) st1) as [[[]|e2] st2] eqn:H2.
  2:{ exists [(f, Delete)], (f, Create), ((f, Populate) :: (f, Activate) :: plan rest), st1, e2.
      split_and!; [done | | done | done].
      econstructor; [exact H1 | constructor]. }
  destruct (bulkInsertDocuments (name f) (documents f) st2) as [[[]|e3] st3] eqn:H3.
  2:{ exists [(f, Delete); (f, Create)], (f, Populate), ((f, Activate) :: plan rest), st2, e3.
      split_and!; [done | | done | done].
      econstructor; [exact H1|]. econstructor; [exact H2 | constructor]. }
  destruct (refreshIndex (name f) st3) as [[[]|e4] st4] eqn:H4.
  2:{ exists [(f, Delete); (f, Create); (f, Populate)], (f, Activate), (plan rest), st3, e4.
      split_and!; [done | | done | done].
      econstructor; [exact H1|]. econstructor; [exact H2|].
      econstructor; [exact H3 | constructor]. }
  specialize (IH st4). destruct (Load rest st4) as [[[]|err] st'].
  - econstructor; [exact H1|]. econstructor; [exact H2|].
    econstructor; [exact H3|]. econstructor; [exact H4 | exact IH].
  - destruct IH as (done & step & rest' & st5 & cause & Hplan & Hdone & Hstep & ->).
    exists ((f, Delete) :: (f, Create) :: (f, Populate) :: (f, Activate) :: done),
      step, rest', st5, cause.
    split_and!; [by rewrite Hplan | | done | done].
    econstructor; [exact H1|]. econstructor; [exact H2|].
    econstructor; [exact H3|]. econstructor; [exact H4 | exact Hdone].
Qed.

Lemma Clean_loop_spec (fixtures : list indexFixture) (errs : list error) (st : St) :
  Clean_loop fixtures errs st =
  (errs ++ failures (delete_every fixtures st).1, (delete_every fixtures st).2).
Proof.
  revert errs st. induction fixtures as [|f rest IH]; intros errs st; simpl.
  { by rewrite app_nil_r. }
  destruct (deleteIndex (name f) st) as [[[]|err] st1]; rewrite IH;
    destruct (delete_every rest st1) as [rs st2]; simpl; [done|].
  by rewrite <-app_assoc.
Qed.

Lemma delete_every_spec (fixtures : list indexFixture) (st : St) :
  length (delete_every fixtures st).1 = length fixtures
  ∧ trace (delete_every fixtures st).2
    = trace st ++ ((λ f, CallDelete [name f] true) <$> fixtures).
Proof.
  revert st. induction fixtures as [|f rest IH]; intros st; simpl.
  { by rewrite app_nil_r. }
  pose proof (deleteIndex_trace (name f) st) as Htr.
  destruct (deleteIndex (name f) st) as [r st1]. specialize (IH st1).
  destruct (delete_every rest st1) as [rs st2]. simpl in *.
  destruct IH as [-> ->]. rewrite Htr, <-app_assoc. done.
Qed.

(** C4: [Clean] requests the deletion of every collection, in the order of
    the fixture set and whatever the outcome of the earlier deletions; it
    succeeds if and only if no deletion failed, and otherwise returns one
    error whose message holds the message of every deletion that failed. *)
Theorem Clean_aggregates (fixtures : list indexFixture) (st : St) :
  let (outcomes, st') := delete_every fixtures st in
  length outcomes = length fixtures
  ∧ trace st' = trace st ++ ((λ f, CallDelete [name f] true) <$> fixtures)
  ∧ (Clean fixtures st).2 = st'
  ∧ ((Clean fixtures st).1 = Ok tt ↔ failures outcomes = [])
  ∧ (failures outcomes ≠ [] ↔
     (Clean fixtures st).1
     = Err (wrap "testfixtures: cleaning up: " (errors_Join (failures outcomes))))
  ∧ Forall (λ e, ∃ err, (Clean fixtures st).1 = Err err
                        ∧ is_substring (Error e) (Error err))
      (failures outcomes).
Proof.
  pose proof (delete_every_spec fixtures st) as [Hlen Htr].
  unfold Clean. rewrite Clean_loop_spec.
  destruct (delete_every fixtures st) as [outcomes st']. simpl in *.
  destruct (failures outcomes) as [|e errs] eqn:Hfail; simpl.
  - do 4 (split; [done|]). split; [|constructor]. split; [done | discriminate].
  - do 3 (split; [done|]). split; [split; discriminate|]. split; [done|].
    apply Forall_forall. intros e' He'. eexists. split.
      { done. }
      unfold wrap, errors_Join. cbn [Error]. apply is_substring_app_l.
      apply (is_substring_Join newline (Error e') (Error <$> e :: errs)).
      by apply list_elem_of_fmap_2.
Qed.

End loader_facts.

(** ** Creating and populating an index *)

Section index_facts.
Context `{GoRuntime} {World : Type} `{Client World}.

Lemma createIndex_trace (nm : string) (mapping settings : option string) (st : St) :
  trace (createIndex nm mapping settings st).2 =
  match buildCreateIndexBody mapping settings with
  | Ok body => trace st ++ [CallCreate nm body]
  | Err _ => trace st
  end.
Proof.
  unfold createIndex. destruct (buildCreateIndexBody _ _) as [body|]; [|done].
  unfold request. destruct (Indices_Create _ _ _) as [[res|err] w]; simpl; [|done].
  by destruct (checkResponse res).
Qed.

(** C5: when neither a schema nor settings are present, the creation
    request is sent without a body; otherwise its body is the JSON encoding
    of the object that holds the schema under [mappings] if it is present,
    the settings under [settings] if they are present, and no other key. *)
Theorem createIndex_body (nm : string) (mapping settings : option string) (st : St) :
  match mapping, settings with
  | None, None =>
      buildCreateIndexBody mapping settings = Ok None
      ∧ trace (createIndex nm mapping settings st).2 = trace st ++ [CallCreate nm None]
  | _, _ =>
      ∃ body : gmap string string,
        body !! "mappings" = mapping
        ∧ body !! "settings" = settings
        ∧ (∀ k, k ≠ "mappings" → k ≠ "settings" → body !! k = None)
        ∧ match json_Marshal_raw body with
          | Ok bytes =>
              buildCreateIndexBody mapping settings = Ok (Some bytes)
              ∧ trace (createIndex nm mapping settings st).2
                = trace st ++ [CallCreate nm (Some bytes)]
          | Err err =>
              buildCreateIndexBody mapping settings = Err err
              ∧ trace (createIndex nm mapping settings st).2 = trace st
          end
  end.
Proof.
  rewrite createIndex_trace.
  destruct mapping as [m|], settings as [s|]; simpl; [| | |done].
  - exists (<["settings" := s]> (<["mappings" := m]> ∅)).
    split_and!; [by simplify_map_eq | by simplify_map_eq | |].
    + intros k ??. by simplify_map_eq.
    + by destruct (json_Marshal_raw _).
  - exists (<["mappings" := m]> ∅).
    split_and!; [by simplify_map_eq | by simplify_map_eq | |].
    + intros k ??. by simplify_map_eq.
    + by destruct (json_Marshal_raw _).
  - exists (<["settings" := s]> ∅).
    split_and!; [by simplify_map_eq | by simplify_map_eq | |].
    + intros k ??. by simplify_map_eq.
    + by destruct (json_Marshal_raw _).
Qed.

Lemma foldl_OnFailure (bulkErrors : list string) (fails : list Failure) :
  foldl OnFailure bulkErrors fails = bulkErrors ++ (failure_message <$> fails).
Proof.
  revert bulkErrors. induction fails as [|f fails IH]; intros bulkErrors; simpl.
  - by rewrite app_nil_r.
  - rewrite IH. unfold OnFailure. by rewrite <-app_assoc.
Qed.

Lemma bulkInsert_loop_accepted (docs : list document) (bodies : list string)
    (bulkErrors : list string) (st : St) (fails : list Failure) (w1 : World) :
  Forall2 (λ doc body, json_Marshal_doc (Body doc) = Ok body) docs bodies →
  adds_accepted (zip_with mkItem docs bodies) (world st) fails w1 →
  bulkInsert_loop docs bulkErrors st =
  (Ok (bulkErrors ++ (failure_message <$> fails)),
   {| world := w1;
      trace := trace st ++ (CallAdd <$> zip_with mkItem docs bodies) |}).
Proof.
  intros Hbodies. revert bulkErrors st fails.
  induction Hbodies as [|doc body docs bodies Hbody _ IH]; intros bulkErrors st fails Hadds; simpl.
  - inversion Hadds; subst. rewrite !app_nil_r. by destruct st.
  - inversion Hadds as [|item items w fs w' fs' w2 Hadd Hrest]; subst.
    rewrite Hbody. unfold request. rewrite Hadd. simpl.
    rewrite (IH _ _ fs'); [|done]. simpl.
    by rewrite foldl_OnFailure, fmap_app, <-!app_assoc.
Qed.

(** C2, as amended: populating a collection without records sends nothing
    and succeeds. Otherwise, provided the batch runs to its end (the
    indexer opens, the body of every record encodes, and the indexer
    accepts every item and the close), exactly one indexer is opened, every
    record is handed to it in order, and it is closed; the failures
    reported for the records are all collected, and the phase fails if and
    only if a failure was reported for some record or the failure count of
    the indexer is not zero, with an error whose message holds the message
    of every failure collected. *)
Theorem bulkInsertDocuments_populate (indexName : string) (docs : list document)
    (st : St) :
  (docs = [] → bulkInsertDocuments indexName docs st = (Ok tt, st))
  ∧ (∀ bodies w0 fails1 w1 fails2 w2,
       docs ≠ [] →
       NewBulkIndexer indexName (world st) = (Ok tt, w0) →
       Forall2 (λ doc body, json_Marshal_doc (Body doc) = Ok body) docs bodies →
       adds_accepted (zip_with mkItem docs bodies) w0 fails1 w1 →
       Indexer_Close w1 = ((fails2, Ok tt), w2) →
       ∃ r, bulkInsertDocuments indexName docs st =
            (r, {| world := w2;
                   trace := trace st ++ [CallNewBulkIndexer indexName]
                            ++ (CallAdd <$> zip_with mkItem docs bodies)
                            ++ [CallClose] |})
            ∧ (r = Ok tt ↔ fails1 ++ fails2 = [] ∧ Stats_NumFailed w2 = 0%N)
            ∧ (∀ err, r = Err err →
                      Forall (λ f, is_substring (failure_message f) (Error err))
                        (fails1 ++ fails2))).
Proof.
  split.
  { intros ->. done. }
  intros bodies w0 fails1 w1 fails2 w2 Hdocs Hnew Hbodies Hadds Hclose.
  unfold bulkInsertDocuments.
  destruct (decide (length docs = 0)) as [Hlen|_].
  { by apply nil_length_inv in Hlen. }
  unfold request at 1. rewrite Hnew.
  erewrite bulkInsert_loop_accepted; [|done..].
  unfold request. simpl. rewrite Hclose. simpl.
  rewrite foldl_OnFailure, <-fmap_app, <-!app_assoc. simpl.
  destruct (fails1 ++ fails2) as [|f fails] eqn:Hfails; simpl.
  - destruct (decide (0 < Stats_NumFailed w2)%N) as [Hn|Hn].
    + eexists. split_and!; [done | | constructor].
      split; [done | intros [_ ?]; lia].
    + eexists. split_and!; [done | | constructor].
      split; [intros _; split; [done | lia] | done].
  - eexists. split_and!; [done | |].
    + split; [done | by intros [? _]].
    + intros err [= <-]. apply Forall_forall. intros f' Hf'.
      cbn [Error]. do 3 apply is_substring_app_l.
      apply is_substring_Join.
      exact (list_elem_of_fmap_2 failure_message (f :: fails) f' Hf').
Qed.

Lemma mkItem_item_of (doc : document) (body : string) :
  json_Marshal_doc (Body doc) = Ok body → item_of doc (mkItem doc body).
Proof.
  intros Hbody. unfold item_of, mkItem, has_explicit_id.
  destruct (decide (ID doc ≠ "")) as [Hid|Hid]; simpl; [done|].
  split_and!; [done | | done | done]. split; [done | by intros ?].
Qed.

Lemma bulkInsert_loop_items (docs : list document) (bulkErrors : list string) (st : St) :
  ∃ calls, trace (bulkInsert_loop docs bulkErrors st).2 = trace st ++ calls
           ∧ Forall (λ c, ∃ item, c = CallAdd item) calls
           ∧ Forall2 item_of (take (length (added_items calls)) docs) (added_items calls)
           ∧ (∀ errs, (bulkInsert_loop docs bulkErrors st).1 = Ok errs →
                      length (added_items calls) = length docs).
Proof.
  revert bulkErrors st. induction docs as [|doc rest IH]; intros bulkErrors st; simpl.
  { exists []. rewrite app_nil_r. split_and!; [done | constructor | constructor | done]. }
  destruct (json_Marshal_doc (Body doc)) as [body|err] eqn:Hbody; simpl.
  2:{ exists []. rewrite app_nil_r.
      split_and!; [done | constructor | constructor | by intros ? [=]]. }
  unfold request. destruct (Indexer_Add _ _) as [[fails [[]|err]] w]; simpl.
  - match goal with |- context [bulkInsert_loop rest ?b ?s] =>
      destruct (IH b s) as (calls & Htr & Hadds & Hitems & Hlen) end.
    exists (CallAdd (mkItem doc body) :: calls). rewrite Htr. simpl.
    split_and!; [by rewrite <-app_assoc | | |].
    + constructor; [by eexists | done].
    + constructor; [by apply mkItem_item_of | done].
    + intros errs Herrs. by rewrite (Hlen errs Herrs).
  - exists [CallAdd (mkItem doc body)]. simpl.
    split_and!; [done | | | by intros ? [=]].
    + constructor; [by eexists | constructor].
    + constructor; [by apply mkItem_item_of | constructor].
Qed.

Lemma added_items_all (docs : list document) (calls : list call) :
  Forall2 item_of (take (length (added_items calls)) docs) (added_items calls) →
  length (added_items calls) = length docs →
  Forall2 item_of docs (added_items calls).
Proof. intros Hitems Hlen. by rewrite Hlen, firstn_all in Hitems. Qed.

Lemma CallClose_not_added (calls : list call) :
  Forall (λ c, ∃ item, c = CallAdd item) calls → CallClose ∉ calls.
Proof.
  intros Hadds Hin. rewrite Forall_forall in Hadds.
  by destruct (Hadds _ Hin) as [item ?].
Qed.

(** C3: every item handed to the indexer while a collection is populated is
    built from the record at the same position: its action is [index], and
    it carries an explicit document identifier, that of the record, if and
    only if the id of the record is not empty. Whenever the batch is closed,
    and whenever the phase succeeds, every record of the collection has
    been handed over in this way; a phase that succeeds on a collection
    with records has closed its batch. *)
Theorem bulkInsertDocuments_items (indexName : string) (docs : list document) (st : St) :
  ∃ calls,
    trace (bulkInsertDocuments indexName docs st).2 = trace st ++ calls
    ∧ Forall2 item_of (take (length (added_items calls)) docs) (added_items calls)
    ∧ (CallClose ∈ calls ∨ (bulkInsertDocuments indexName docs st).1 = Ok tt →
       Forall2 item_of docs (added_items calls))
    ∧ ((bulkInsertDocuments indexName docs st).1 = Ok tt →
       docs = [] ∨ CallClose ∈ calls).
Proof.
  destruct docs as [|doc rest].
  { exists []. simpl. rewrite app_nil_r.
    split_and!; [done | constructor | by intros _; constructor | by left]. }
  unfold bulkInsertDocuments. rewrite decide_False by done.
  destruct (request (CallNewBulkIndexer indexName) (NewBulkIndexer indexName) st)
    as [r0 st0] eqn:Hreq.
  assert (trace st0 = trace st ++ [CallNewBulkIndexer indexName]) as Ht0.
  { unfold request in Hreq. destruct (NewBulkIndexer _ _). by simplify_eq/=. }
  destruct r0 as [[]|err].
  2:{ exists [CallNewBulkIndexer indexName]. cbn [fst snd].
      split_and!; [done | constructor | | done].
      intros [Hin|?]; [|done].
      apply elem_of_cons in Hin as [?|Hin]; [done | by apply elem_of_nil in Hin]. }
  destruct (bulkInsert_loop_items (doc :: rest) [] st0)
    as (calls & Htr & Hadds & Hitems & Hlen).
  destruct (bulkInsert_loop (doc :: rest) [] st0) as [[bulkErrors|err] st1];
    cbn [fst snd] in *.
  2:{ exists (CallNewBulkIndexer indexName :: calls).
      split_and!; [by rewrite Htr, Ht0, <-app_assoc | done | | done].
      intros [Hin|?]; [|done].
      apply elem_of_cons in Hin as [?|Hin]; [done|].
      by apply CallClose_not_added in Hin. }
  exists (CallNewBulkIndexer indexName :: calls ++ [CallClose]).
  assert (added_items (CallNewBulkIndexer indexName :: calls ++ [CallClose])
          = added_items calls) as Hsame.
  { unfold added_items. simpl. rewrite omap_app. simpl. by rewrite app_nil_r. }
  rewrite Hsame.
  pose proof (added_items_all _ _ Hitems (Hlen bulkErrors eq_refl)) as Hall.
  split_and!.
  - destruct (request CallClose Indexer_Close st1) as [[fails r2] st2] eqn:Hclose.
    assert (trace st2 = trace st1 ++ [CallClose]) as Ht2.
    { unfold request in Hclose. destruct (Indexer_Close _). by simplify_eq/=. }
    destruct r2 as [[]|err]; repeat case_decide; cbn [fst snd];
      by rewrite Ht2, Htr, Ht0, <-!app_assoc.
  - done.
  - done.
  - intros _. right. apply elem_of_cons. right. apply elem_of_app. right.
    apply list_elem_of_here.
Qed.

End index_facts.

(** ** The sample fixtures *)

Section sample_runs.
#[local] Existing Instance sample_runtime.
#[local] Existing Instance scripted_client.

Lemma parseYAMLDocuments_records_witness :
  yaml_Unmarshal users_yml = Ok users_raw
  ∧ ∃ docs, parseYAMLDocuments "fixtures/users/docs.yml" (inr (File users_yml)) = Ok docs
            ∧ Forall2 record_of users_raw docs
            ∧ Forall (λ doc, Body doc !! "_id" = None) docs.
Proof.
  split; [reflexivity|].
  apply (@parseYAMLDocuments_records sample_runtime
           "fixtures/users/docs.yml" users_yml users_raw).
  reflexivity.
Defined.

Lemma sample_root_well_formed :
  Forall (λ e : DirEntry, IsDir e → well_formed_collection e.2) sample_root.
Proof.
  apply Forall_cons_2.
  { intros _. exists [ ("docs.yml", File users_yml);
                       ("_settings.json", File "{}");
                       ("_mapping.json", File "{}") ].
    split_and!; [reflexivity..|]. unfold records_ok. well_formed_sample. }
  apply Forall_cons_2; [intros []|].
  apply Forall_cons_2; [|apply Forall_nil_2].
  intros _. eexists. split_and!; [reflexivity..|]. unfold records_ok. well_formed_sample.
Defined.

Lemma parseFixtures_collections_witness :
  length (filter (λ e, IsDir e) sample_root) = 2
  ∧ ∃ fixtures, sample_fixtures = Ok fixtures
                ∧ length fixtures = 2
                ∧ name <$> fixtures = ["products"; "users"].
Proof.
  split; [reflexivity|].
  destruct (parseFixtures_collections "fixtures" sample_root 2 eq_refl)
    as (_ & Hnames & Hok).
  destruct Hok as [fixtures Hfs]; [lia | exact sample_root_well_formed |].
  exists fixtures. split; [exact Hfs|].
  destruct (Hnames fixtures Hfs) as (Hlen & _ & Hn & _).
  split; [exact Hlen|]. rewrite Hn. reflexivity.
Defined.

Lemma malformed_records_abort_witness :
  yaml_Unmarshal broken_yml = Err broken_cause
  ∧ parseFixtures "fixtures" (inr (Dir broken_root))
    = Err (MalformedRecords "users" "docs.yml" broken_cause).
Proof.
  split; [reflexivity|].
  destruct (malformed_records_abort "fixtures" broken_root
              [("docs.yml", File broken_yml)]
              ("users", Dir [("docs.yml", File broken_yml)])
              ("docs.yml", File broken_yml) broken_yml broken_cause)
    as (_ & Hfirst & _).
  - apply list_elem_of_here.
  - reflexivity.
  - apply list_elem_of_here.
  - reflexivity.
  - reflexivity.
  - reflexivity.
  - apply (Hfirst [] [] [] []); [reflexivity | constructor | exact I | exact I
                                 | reflexivity | constructor].
Defined.

(** C9 as it is stated does not hold: the error reported for the malformed
    record source [fixtures/users/docs.yml] holds the name of the collection
    and the name of the file, but not the path of the file. *)
Lemma malformed_records_path_counterexample :
  yaml_Unmarshal broken_yml = Err broken_cause
  ∧ parseFixtures "fixtures" (inr (Dir broken_root))
    = Err (MalformedRecords "users" "docs.yml" broken_cause)
  ∧ ¬ is_substring (filepath_Join (filepath_Join "fixtures" "users") "docs.yml")
        (Error (MalformedRecords "users" "docs.yml" broken_cause)).
Proof.
  split; [reflexivity|]. split; [reflexivity|].
  intros Hpath%is_substring_contains. vm_compute in Hpath. discriminate.
Qed.

Lemma bulkInsertDocuments_populate_witness :
  users_docs ≠ []
  ∧ ∃ err, (bulkInsertDocuments "users" users_docs failing_batch).1 = Err err
           ∧ is_substring (failure_message conflict) (Error err)
           ∧ is_substring (failure_message too_large) (Error err)
           ∧ added_items (trace (bulkInsertDocuments "users" users_docs failing_batch).2)
             = zip_with mkItem users_docs users_bodies.
Proof.
  split; [discriminate|].
  destruct (bulkInsertDocuments_populate "users" users_docs failing_batch) as [_ Hbatch].
  destruct (Hbatch users_bodies
              {| pending := [Accept [conflict] (Ok tt); Accept [] (Ok tt);
                             Accept [too_large] (Ok tt)]; numFailed := 0 |}
              [conflict]
              {| pending := [Accept [too_large] (Ok tt)]; numFailed := 1 |}
              [too_large]
              {| pending := []; numFailed := 2 |})
    as (r & Hrun & Hiff & Hmsgs).
  - discriminate.
  - reflexivity.
  - repeat constructor.
  - apply (adds_accepted_cons _ _ _ [conflict]
             {| pending := [Accept [] (Ok tt); Accept [too_large] (Ok tt)];
                numFailed := 1 |} []); [reflexivity|].
    apply (adds_accepted_cons _ _ _ []
             {| pending := [Accept [too_large] (Ok tt)]; numFailed := 1 |} []);
      [reflexivity | constructor].
  - reflexivity.
  - destruct r as [[]|err].
    + destruct (proj1 Hiff eq_refl) as [Hnil _]. discriminate Hnil.
    + exists err. rewrite Hrun. split; [reflexivity|].
      pose proof (Hmsgs err eq_refl) as Hall.
      apply Forall_cons in Hall as [Hc Hall]. apply Forall_cons in Hall as [Ht _].
      split; [exact Hc|]. split; [exact Ht|]. reflexivity.
Defined.

(** C2 as it is stated does not hold: the second of these three records
    does not encode, and the populate phase returns the error of the
    encoder after handing over the first record only; the batch is never
    closed, although the indexer reported no failure for any record. *)
Lemma bulkInsertDocuments_populate_counterexample :
  scores_docs ≠ []
  ∧ (@bulkInsertDocuments number_runtime _ scripted_client "scores" scores_docs
       (start [])).1
    = Err (Errorf "marshaling document: json: unsupported value: NaN")
  ∧ trace (@bulkInsertDocuments number_runtime _ scripted_client "scores" scores_docs
             (start [])).2
    = [ CallNewBulkIndexer "scores";
        CallAdd {| Action := "index"; DocumentID := "1"; ItemBody := scored_body |} ]
  ∧ length (added_items
              (trace (@bulkInsertDocuments number_runtime _ scripted_client "scores"
                        scores_docs (start [])).2))
    < length scores_docs
  ∧ Stats_NumFailed
      (world (@bulkInsertDocuments number_runtime _ scripted_client "scores"
                scores_docs (start [])).2)
    = 0%N.
Proof.
  split; [discriminate|]. split; [reflexivity|]. split; [reflexivity|].
  split; [vm_compute; lia | reflexivity].
Qed.

Lemma bulkInsertDocuments_items_witness :
  (bulkInsertDocuments "users" users_docs (start [])).1 = Ok tt
  ∧ ∃ calls, trace (bulkInsertDocuments "users" users_docs (start [])).2 = calls
             ∧ CallClose ∈ calls
             ∧ Forall2 item_of users_docs (added_items calls).
Proof.
  assert ((bulkInsertDocuments "users" users_docs (start [])).1 = Ok tt) as Hrun
    by reflexivity.
  split; [exact Hrun|].
  destruct (bulkInsertDocuments_items "users" users_docs (start []))
    as (calls & Htr & _ & Hall & Hclosed).
  exists calls. split; [exact Htr|]. split.
  - destruct (Hclosed Hrun) as [Hnil|Hin]; [discriminate Hnil | exact Hin].
  - apply Hall. right. exact Hrun.
Defined.

Lemma parseFixtures_reproducible_witness :
  names_unique sample_root
  ∧ same_tree sample_root relisted_root
  ∧ parseFixtures "fixtures" (inr (Dir relisted_root)) = sample_fixtures.
Proof.
  assert (names_unique sample_root) as Hunique.
  { split; [compute_done|]. repeat constructor; compute_done. }
  assert (same_tree sample_root relisted_root) as Htree.
  { unfold same_tree. vm_compute. apply Permutation_swap. }
  split; [exact Hunique|]. split; [exact Htree|].
  destruct (parseFixtures_reproducible "fixtures" sample_root) as [_ Hsame].
  exact (Hsame relisted_root Hunique Htree).
Defined.

(** [Load] on the sample fixtures when the store refuses to create the first
    index: the requests stop there. *)
Example Load_stops_at_create :
  match sample_fixtures with
  | Ok fixtures =>
      (Load fixtures failing_create).1
      = Err (Errorf ("testfixtures: creating index " +:+ quote_plain "products"
                     +:+ ": elasticsearch error [500 Internal Server Error]: boom"))
      ∧ trace (Load fixtures failing_create).2
        = [ CallDelete ["products"] true;
            CallCreate "products" (Some ("{" +:+ quote_plain "mappings" +:+ ":{}}")) ]
  | Err _ => False
  end.
Proof. vm_compute. split; reflexivity. Qed.

(** [Clean] on the sample fixtures when the first deletion fails: the second
    one is still requested. *)
Example Clean_goes_on :
  match sample_fixtures with
  | Ok fixtures =>
      (Clean fixtures (start [Respond (Ok error500)])).1
      = Err (Errorf ("testfixtures: cleaning up: deleting index " +:+ quote_plain "products"
                     +:+ ": elasticsearch error [500 Internal Server Error]: boom"))
      ∧ trace (Clean fixtures (start [Respond (Ok error500)])).2
        = [ CallDelete ["products"] true; CallDelete ["users"] true ]
  | Err _ => False
  end.
Proof. vm_compute. split; reflexivity. Qed.

End sample_runs.

(** * Further properties of the parser *)

Section parser_more.
Context `{GoRuntime}.

Lemma parseDocumentFiles_Ok_Dir (dir : string) (d : node) (docs : list document) :
  parseDocumentFiles dir (inr d) = Ok docs → ∃ es, d = Dir es.
Proof. destruct d as [|es|]; [done | by exists es | done]. Qed.

Lemma read_schema_Ok (path pre file : string) (es : list DirEntry) (o : option string) :
  match readJSONFile path (resolve (Dir es) file) with
  | Err err => if negb (os_IsNotExist err) then Err (wrap pre err) else Ok None
  | Ok m => Ok (Some m)
  end = Ok o →
  schema_ok (find_entry file es) ∧ o = file_content (find_entry file es).
Proof.
  unfold schema_ok, file_content, readJSONFile, resolve.
  destruct (find_entry file es) as [[data| |]|]; simpl; try done.
  - destruct (json_Valid data); simpl; [|done]. by intros [= <-].
  - by intros [= <-].
Qed.

(** X1: a collection directory that parses gives a fixture with the name it
    was given, the bytes of [_mapping.json] and of [_settings.json] as they
    are in the files, nothing for a schema file that is missing, and the
    records of [parseDocumentFiles]. *)
Theorem parseIndexDir_fields (dir nm : string) (d : node) (f : indexFixture) :
  parseIndexDir dir nm d = Ok f →
  ∃ es, d = Dir es
        ∧ name f = nm
        ∧ mapping f = file_content (find_entry mappingFile es)
        ∧ settings f = file_content (find_entry settingsFile es)
        ∧ parseDocumentFiles dir (inr (Dir es)) = Ok (documents f).
Proof.
  intros Hf. pose proof (parseIndexDir_Ok_documents _ _ _ _ Hf) as Hdocs.
  destruct (parseDocumentFiles_Ok_Dir _ _ _ Hdocs) as [es ->]. exists es.
  unfold parseIndexDir in Hf.
  match type of Hf with
  | match ?x with Ok _ => _ | Err _ => _ end = _ => destruct x as [m|] eqn:Hm; [|done]
  end.
  match type of Hf with
  | match ?x with Ok _ => _ | Err _ => _ end = _ => destruct x as [s|] eqn:Hs; [|done]
  end.
  apply read_schema_Ok in Hm as [_ ->]. apply read_schema_Ok in Hs as [_ ->].
  destruct (parseDocumentFiles dir (inr (Dir es))) as [docs|]; [|done].
  by injection Hf as <-.
Qed.

Lemma parse_source_Ok_inv (dir : string) (e : DirEntry) (docs : list document) :
  parse_source dir e = Ok docs →
  ∃ data, e.2 = File data ∧ is_Ok (yaml_Unmarshal data).
Proof.
  unfold parse_source, parseYAMLDocuments.
  destruct e.2 as [data| |]; simpl; [|done..].
  destruct (yaml_Unmarshal data) as [raw|] eqn:Hraw; [|done].
  intros _. exists data. split; [done | by exists raw].
Qed.

(** X2: a collection directory parses if and only if it is a readable
    directory in which [_mapping.json] and [_settings.json] are each either
    missing or a file of valid JSON, and every record source is a readable
    file that decodes. *)
Theorem parseIndexDir_succeeds_iff (dir nm : string) (d : node) :
  is_Ok (parseIndexDir dir nm d) ↔ well_formed_collection d.
Proof.
  split; [|apply parseIndexDir_well_formed].
  intros [f Hf]. pose proof (parseIndexDir_Ok_documents _ _ _ _ Hf) as Hdocs.
  destruct (parseDocumentFiles_Ok_Dir _ _ _ Hdocs) as [es ->]. exists es.
  split; [done|]. unfold parseIndexDir in Hf.
  match type of Hf with
  | match ?x with Ok _ => _ | Err _ => _ end = _ => destruct x as [m|] eqn:Hm; [|done]
  end.
  match type of Hf with
  | match ?x with Ok _ => _ | Err _ => _ end = _ => destruct x as [s|] eqn:Hs; [|done]
  end.
  apply read_schema_Ok in Hm as [Hm _]. apply read_schema_Ok in Hs as [Hs _].
  split_and!; [done..|].
  rewrite parseDocumentFiles_spec in Hdocs.
  destruct (rmapM _ _) as [dss|] eqn:Hdss; [|done].
  apply Forall_forall. intros e He Hsrc%Is_true_true.
  destruct (rmapM_Ok_elem _ _ _ e Hdss) as [docs Hdocs'].
  { by apply elem_of_record_sources. }
  by eapply parse_source_Ok_inv.
Qed.

(** X3: a [_mapping.json] that does not hold valid JSON makes the collection
    fail with an error that holds the quoted path of that file, whatever
    the settings file and the record sources are; the same holds for
    [_settings.json] once [_mapping.json] is missing or valid. *)
Theorem parseIndexDir_invalid_schema (dir nm : string) (es : list DirEntry)
    (data : string) :
  json_Valid data = false →
  (find_entry mappingFile es = Some (File data) →
   parseIndexDir dir nm (Dir es)
   = Err (Errorf ("reading _mapping.json: invalid JSON in "
                  +:+ strconv_Quote (filepath_Join dir mappingFile))))
  ∧ (schema_ok (find_entry mappingFile es) →
     find_entry settingsFile es = Some (File data) →
     parseIndexDir dir nm (Dir es)
     = Err (Errorf ("reading _settings.json: invalid JSON in "
                    +:+ strconv_Quote (filepath_Join dir settingsFile)))).
Proof.
  intros Hdata. split.
  - intros Hm. unfold parseIndexDir, readJSONFile, resolve.
    rewrite Hm. simpl. by rewrite Hdata.
  - intros Hm Hs. unfold parseIndexDir.
    destruct (read_schema_ok (filepath_Join dir mappingFile)
                ("reading " +:+ mappingFile +:+ ": ") _ _ Hm) as [m ->].
    unfold readJSONFile, resolve. rewrite Hs. simpl. by rewrite Hdata.
Qed.

(** X4: [parseFixtures] fails in three ways only: the root cannot be listed,
    and the error wraps that of the operating system; the root has no
    subdirectory, and the error is the empty-fixture-set error; or some
    collection directory does not parse, and the error is that of the first
    such directory in the order of the listing, prefixed with its quoted
    name. *)
Theorem parseFixtures_error_cases (dir : string) (target : errno + node) (err : error) :
  parseFixtures dir target = Err err →
  (∃ oserr, os_ReadDir dir target = Err oserr
            ∧ err = wrap ("reading fixtures directory " +:+ strconv_Quote dir +:+ ": ") oserr)
  ∨ (∃ es, target = inr (Dir es)
           ∧ collection_dirs es = [] ∧ err = EmptyFixtureSet dir)
  ∨ (∃ es pre d post cause,
       target = inr (Dir es)
       ∧ collection_dirs es = pre ++ d :: post
       ∧ Forall (λ x, is_Ok (parse_collection dir x)) pre
       ∧ parseIndexDir (filepath_Join dir d.1) d.1 d.2 = Err cause
       ∧ err = wrap ("parsing index " +:+ strconv_Quote d.1 +:+ ": ") cause).
Proof.
  intros Hparse.
  destruct (os_ReadDir dir target) as [entries|oserr] eqn:Hread.
  2:{ left. exists oserr. split; [done|].
      unfold parseFixtures in Hparse. rewrite Hread in Hparse. by simplify_eq. }
  right. assert (∃ es, target = inr (Dir es)) as [es ->].
  { destruct target as [|[|es|]]; [done.. | by exists es | done]. }
  rewrite parseFixtures_spec in Hparse.
  destruct (rmapM _ _) as [fs|e] eqn:Hfs.
  - left. exists es. case_decide as Hlen; simplify_eq. split; [done|].
    apply rmapM_length in Hfs. split; [|done].
    apply nil_length_inv. lia.
  - right. simplify_eq. apply rmapM_Err in Hfs as (pre & d & post & Hdirs & Hpre & Hd).
    unfold parse_collection in Hd.
    destruct (parseIndexDir _ _ _) as [|cause] eqn:Hidx; simplify_eq.
    by exists es, pre, d, post, cause.
Qed.

(** X5: when the names of the entries of the root are distinct, so are the
    names of the parsed fixtures, and each of them is the name of a
    directory of the root. *)
Theorem parseFixtures_names_distinct (dir : string) (es : list DirEntry)
    (fs : list indexFixture) :
  NoDup es.*1 →
  parseFixtures dir (inr (Dir es)) = Ok fs →
  NoDup (name <$> fs)
  ∧ Forall (λ f, ∃ e, e ∈ es ∧ IsDir e = true ∧ e.1 = name f) fs.
Proof.
  intros Hnd Hfs. destruct (parseFixtures_names _ _ _ Hfs) as (Hall & Hnames & _).
  split.
  - rewrite Hnames. unfold collection_dirs.
    eapply sublist_NoDup; [|apply fmap_sublist, sublist_filter].
    by rewrite merge_sort_Permutation.
  - apply Forall_forall. intros f Hf.
    apply list_elem_of_lookup in Hf as [i Hi].
    destruct (Forall2_lookup_r _ _ _ _ _ Hall Hi) as (e & He & Hef).
    apply list_elem_of_lookup_2, elem_of_collection_dirs in He as [He Hdir].
    exists e. split_and!; [done..|]. symmetry. by eapply parse_collection_name.
Qed.

Lemma parseYAMLDocuments_no_id (path : string) (target : errno + node)
    (docs : list document) :
  parseYAMLDocuments path target = Ok docs →
  Forall (λ doc, Body doc !! "_id" = None) docs.
Proof.
  unfold parseYAMLDocuments. destruct (os_ReadFile path target) as [data|]; [|done].
  destruct (yaml_Unmarshal data) as [raw|]; [|done].
  intros [= <-]. apply Forall_fmap, Forall_forall. intros r _. simpl.
  pose proof (mkDocument_record_of r) as Hrec. unfold record_of in Hrec.
  destruct (r !! "_id") eqn:Hid; [by destruct Hrec as (_ & _ & ?)|].
  by destruct Hrec as [_ ->].
Qed.

(** X6: no record of a parsed fixture set holds the key [_id] in its body,
    whatever the files were. *)
Theorem parseFixtures_no_id_in_bodies (dir : string) (target : errno + node)
    (fs : list indexFixture) :
  parseFixtures dir target = Ok fs →
  Forall (λ f, Forall (λ doc, Body doc !! "_id" = None) (documents f)) fs.
Proof.
  intros Hfs. assert (∃ es, target = inr (Dir es)) as [es ->].
  { destruct target as [|[|es|]]; [done.. | by exists es | done]. }
  destruct (parseFixtures_names _ _ _ Hfs) as (Hall & _ & _).
  apply Forall_forall. intros f Hf.
  apply list_elem_of_lookup in Hf as [i Hi].
  destruct (Forall2_lookup_r _ _ _ _ _ Hall Hi) as (e & _ & Hef).
  destruct (parse_collection_documents _ _ _ Hef) as (des & dss & _ & Hdss & ->).
  apply rmapM_Ok in Hdss. clear -Hdss.
  induction Hdss as [|x ds l dss' Hx _ IH]; simpl; [constructor|].
  apply Forall_app. split; [|done].
  unfold parse_source in Hx.
  destruct (parseYAMLDocuments _ _) as [ds'|] eqn:Hds; simplify_eq.
  by eapply parseYAMLDocuments_no_id.
Qed.

End parser_more.

(** * Further properties of the index operations *)

Lemma is_substring_trans (a b c : string) :
  is_substring a b → is_substring b c → is_substring a c.
Proof.
  intros (p1 & q1 & ->) (p2 & q2 & ->). exists (p2 +:+ p1), (q1 +:+ q2).
  by rewrite !string_app_assoc.
Qed.

Section index_more.
Context `{GoRuntime} {World : Type} `{Client World}.

Lemma checkResponse_Ok (res : Response) :
  checkResponse res = Ok tt ↔ (StatusCode res ≤ 299)%Z.
Proof.
  unfold checkResponse, IsError.
  destruct (299 <? StatusCode res)%Z eqn:Hs; simpl.
  - apply Z.ltb_lt in Hs. split; [done | lia].
  - apply Z.ltb_ge in Hs. done.
Qed.

(** X7: [deleteIndex] sends exactly one request, a deletion of that index
    alone that ignores a missing index; it succeeds if and only if the
    client returns a response whose status is at most 299, and every error
    it returns starts by naming the index. *)
Theorem deleteIndex_outcome (nm : string) (st : St) :
  (deleteIndex nm st).2
  = {| world := (Indices_Delete [nm] true (world st)).2;
       trace := trace st ++ [CallDelete [nm] true] |}
  ∧ ((deleteIndex nm st).1 = Ok tt ↔
     ∃ res, (Indices_Delete [nm] true (world st)).1 = Ok res
            ∧ (StatusCode res ≤ 299)%Z)
  ∧ (∀ err, (deleteIndex nm st).1 = Err err →
            ∃ msg, Error err = "deleting index " +:+ strconv_Quote nm +:+ ": " +:+ msg).
Proof.
  unfold deleteIndex, request.
  destruct (Indices_Delete [nm] true (world st)) as [[res|e] w]; simpl.
  - pose proof (checkResponse_Ok res) as Hres.
    destruct (checkResponse res) as [[]|e]; simpl.
    + split_and!; [done | | done]. split; [|done].
      intros _. exists res. split; [done | by apply Hres].
    + split_and!; [done | |].
      * split; [done|]. intros (res' & [= <-] & Hle). by apply Hres in Hle.
      * intros err [= <-]. exists (Error e). unfold wrap. simpl.
        by rewrite !string_app_assoc.
  - split_and!; [done | |].
    + split; [done | by intros (res & ? & _)].
    + intros err [= <-]. exists (Error e). unfold wrap. simpl.
      by rewrite !string_app_assoc.
Qed.

(** X8: [refreshIndex] sends exactly one request, a refresh of that index;
    it succeeds if and only if the client returns a response whose status
    is at most 299, and every error it returns starts by naming the
    index. *)
Theorem refreshIndex_outcome (nm : string) (st : St) :
  (refreshIndex nm st).2
  = {| world := (Indices_Refresh nm (world st)).2;
       trace := trace st ++ [CallRefresh nm] |}
  ∧ ((refreshIndex nm st).1 = Ok tt ↔
     ∃ res, (Indices_Refresh nm (world st)).1 = Ok res ∧ (StatusCode res ≤ 299)%Z)
  ∧ (∀ err, (refreshIndex nm st).1 = Err err →
            ∃ msg, Error err = "refreshing index " +:+ strconv_Quote nm +:+ ": " +:+ msg).
Proof.
  unfold refreshIndex, request.
  destruct (Indices_Refresh nm (world st)) as [[res|e] w]; simpl.
  - pose proof (checkResponse_Ok res) as Hres.
    destruct (checkResponse res) as [[]|e]; simpl.
    + split_and!; [done | | done]. split; [|done].
      intros _. exists res. split; [done | by apply Hres].
    + split_and!; [done | |].
      * split; [done|]. intros (res' & [= <-] & Hle). by apply Hres in Hle.
      * intros err [= <-]. exists (Error e). unfold wrap. simpl.
        by rewrite !string_app_assoc.
  - split_and!; [done | |].
    + split; [done | by intros (res & ? & _)].
    + intros err [= <-]. exists (Error e). unfold wrap. simpl.
      by rewrite !string_app_assoc.
Qed.

(** X9: when the request body cannot be built, [createIndex] fails without
    sending anything; otherwise it sends exactly one creation request, and
    succeeds if and only if the client returns a response whose status is
    at most 299. A response with a higher status gives an error that holds
    the status line and the body of the response. *)
Theorem createIndex_outcome (nm : string) (mapping settings : option string) (st : St) :
  match buildCreateIndexBody mapping settings with
  | Err e =>
      createIndex nm mapping settings st = (Err (wrap "building request body: " e), st)
  | Ok body =>
      (createIndex nm mapping settings st).2
      = {| world := (Indices_Create nm body (world st)).2;
           trace := trace st ++ [CallCreate nm body] |}
      ∧ ((createIndex nm mapping settings st).1 = Ok tt ↔
         ∃ res, (Indices_Create nm body (world st)).1 = Ok res
                ∧ (StatusCode res ≤ 299)%Z)
      ∧ (∀ res, (Indices_Create nm body (world st)).1 = Ok res →
                (299 < StatusCode res)%Z →
                (createIndex nm mapping settings st).1
                = Err (Errorf ("creating index " +:+ strconv_Quote nm
                               +:+ ": elasticsearch error [" +:+ Status res +:+ "]: "
                               +:+ ResponseBody res)))
  end.
Proof.
  unfold createIndex. destruct (buildCreateIndexBody mapping settings) as [body|e]; [|done].
  unfold request. destruct (Indices_Create nm body (world st)) as [[res|e] w]; simpl.
  - pose proof (checkResponse_Ok res) as Hres.
    destruct (checkResponse res) as [[]|e] eqn:Hcheck; simpl.
    + split_and!; [done | |].
      * split; [|done]. intros _. exists res. split; [done | by apply Hres].
      * intros res' [= <-] Hgt. pose proof (proj1 Hres eq_refl). lia.
    + split_and!; [done | |].
      * split; [done|]. intros (res' & [= <-] & Hle). by apply Hres in Hle.
      * intros res' [= <-] Hgt. unfold checkResponse, IsError in Hcheck.
        destruct (299 <? StatusCode res)%Z; simpl in *; simplify_eq.
        unfold wrap. simpl. by rewrite !string_app_assoc.
  - split_and!; [done | |].
    + split; [done | by intros (res & ? & _)].
    + by intros res [=].
Qed.

End index_more.

(** * Further properties of the populate phase *)

Section populate_more.
Context `{GoRuntime} {World : Type} `{Client World}.

(** The loop over records the indexer accepts. *)
Lemma bulkInsert_loop_accepted_app (pre rest : list document) (bodies : list string)
    (bulkErrors : list string) (st : St) (fails : list Failure) (w1 : World) :
  Forall2 (λ doc body, json_Marshal_doc (Body doc) = Ok body) pre bodies →
  adds_accepted (zip_with mkItem pre bodies) (world st) fails w1 →
  bulkInsert_loop (pre ++ rest) bulkErrors st =
  bulkInsert_loop rest (bulkErrors ++ (failure_message <$> fails))
    {| world := w1; trace := trace st ++ (CallAdd <$> zip_with mkItem pre bodies) |}.
Proof.
  intros Hbodies. revert bulkErrors st fails.
  induction Hbodies as [|doc body docs bodies Hbody _ IH]; intros bulkErrors st fails Hadds.
  - inversion Hadds; subst. simpl. rewrite !app_nil_r. by destruct st.
  - inversion Hadds as [|item items w fs w' fs' w2 Hadd Hrest]; subst.
    cbn [app bulkInsert_loop]. rewrite Hbody. unfold request. rewrite Hadd.
    cbn [fst snd]. rewrite (IH _ _ fs'); [|done]. simpl.
    by rewrite foldl_OnFailure, fmap_app, <-!app_assoc.
Qed.

(** X10: a record whose body does not encode stops the populate phase at
    that record: the records before it have been handed to the indexer,
    the ones after it are not, the indexer is not closed, the failures
    collected so far are dropped, and the error is that of the encoder. *)
Theorem bulkInsertDocuments_encoding_abort (indexName : string)
    (pre post : list document) (doc : document) (bodies : list string)
    (st : St) (w0 w1 : World) (fails : list Failure) (e : error) :
  NewBulkIndexer indexName (world st) = (Ok tt, w0) →
  Forall2 (λ doc body, json_Marshal_doc (Body doc) = Ok body) pre bodies →
  adds_accepted (zip_with mkItem pre bodies) w0 fails w1 →
  json_Marshal_doc (Body doc) = Err e →
  bulkInsertDocuments indexName (pre ++ doc :: post) st =
  (Err (wrap "marshaling document: " e),
   {| world := w1;
      trace := trace st ++ [CallNewBulkIndexer indexName]
               ++ (CallAdd <$> zip_with mkItem pre bodies) |}).
Proof.
  intros Hnew Hbodies Hadds Hdoc. unfold bulkInsertDocuments.
  destruct (decide (length (pre ++ doc :: post) = 0)) as [Hlen|_].
  { rewrite length_app in Hlen. simpl in Hlen. lia. }
  unfold request at 1. rewrite Hnew.
  erewrite bulkInsert_loop_accepted_app; [|done..].
  simpl. rewrite Hdoc. by rewrite <-app_assoc.
Qed.

(** X11: an item the indexer refuses stops the populate phase at that
    record: the records after it are not handed over, the indexer is not
    closed, the failures collected so far are dropped, and the error is
    that of the indexer. *)
Theorem bulkInsertDocuments_add_refused (indexName : string)
    (pre post : list document) (doc : document) (bodies : list string) (body : string)
    (st : St) (w0 w1 w2 : World) (fails fails' : list Failure) (e : error) :
  NewBulkIndexer indexName (world st) = (Ok tt, w0) →
  Forall2 (λ doc body, json_Marshal_doc (Body doc) = Ok body) pre bodies →
  adds_accepted (zip_with mkItem pre bodies) w0 fails w1 →
  json_Marshal_doc (Body doc) = Ok body →
  Indexer_Add (mkItem doc body) w1 = ((fails', Err e), w2) →
  bulkInsertDocuments indexName (pre ++ doc :: post) st =
  (Err (wrap "adding document to bulk indexer: " e),
   {| world := w2;
      trace := trace st ++ [CallNewBulkIndexer indexName]
               ++ (CallAdd <$> zip_with mkItem pre bodies)
               ++ [CallAdd (mkItem doc body)] |}).
Proof.
  intros Hnew Hbodies Hadds Hdoc Hadd. unfold bulkInsertDocuments.
  destruct (decide (length (pre ++ doc :: post) = 0)) as [Hlen|_].
  { rewrite length_app in Hlen. simpl in Hlen. lia. }
  unfold request at 1. rewrite Hnew.
  erewrite bulkInsert_loop_accepted_app; [|done..].
  simpl. rewrite Hdoc. unfold request. simpl. rewrite Hadd. simpl.
  by rewrite <-!app_assoc.
Qed.

(** X12: when closing the indexer fails, the populate phase fails with the
    error of the close, and the failures reported for the records, before
    or during the close, are not part of that error. *)
Theorem bulkInsertDocuments_close_failed (indexName : string) (docs : list document)
    (bodies : list string) (st : St) (w0 w1 w2 : World)
    (fails1 fails2 : list Failure) (e : error) :
  docs ≠ [] →
  NewBulkIndexer indexName (world st) = (Ok tt, w0) →
  Forall2 (λ doc body, json_Marshal_doc (Body doc) = Ok body) docs bodies →
  adds_accepted (zip_with mkItem docs bodies) w0 fails1 w1 →
  Indexer_Close w1 = ((fails2, Err e), w2) →
  bulkInsertDocuments indexName docs st =
  (Err (Errorf ("closing bulk indexer for " +:+ strconv_Quote indexName +:+ ": "
                +:+ Error e)),
   {| world := w2;
      trace := trace st ++ [CallNewBulkIndexer indexName]
               ++ (CallAdd <$> zip_with mkItem docs bodies) ++ [CallClose] |}).
Proof.
  intros Hdocs Hnew Hbodies Hadds Hclose. unfold bulkInsertDocuments.
  destruct (decide (length docs = 0)) as [Hlen|_].
  { by apply nil_length_inv in Hlen. }
  unfold request at 1. rewrite Hnew.
  erewrite bulkInsert_loop_accepted; [|done..].
  unfold request. simpl. rewrite Hclose. simpl.
  unfold wrap. by rewrite <-!app_assoc, !string_app_assoc.
Qed.

(** X13: for a batch that runs to its end, the error of the populate phase
    is the list of the collected messages, in the order they were
    reported and separated by [; ], whenever there is one; the number of
    failed documents is reported only when no message was collected. *)
Theorem bulkInsertDocuments_messages (indexName : string) (docs : list document)
    (bodies : list string) (st : St) (w0 w1 w2 : World)
    (fails1 fails2 : list Failure) :
  docs ≠ [] →
  NewBulkIndexer indexName (world st) = (Ok tt, w0) →
  Forall2 (λ doc body, json_Marshal_doc (Body doc) = Ok body) docs bodies →
  adds_accepted (zip_with mkItem docs bodies) w0 fails1 w1 →
  Indexer_Close w1 = ((fails2, Ok tt), w2) →
  (bulkInsertDocuments indexName docs st).1 =
  match fails1 ++ fails2 with
  | [] =>
      if decide (0 < Stats_NumFailed w2)%N
      then Err (Errorf ("bulk insert for " +:+ strconv_Quote indexName +:+ ": "
                        +:+ pretty (Stats_NumFailed w2) +:+ " documents failed"))
      else Ok tt
  | fails =>
      Err (Errorf ("bulk insert errors for " +:+ strconv_Quote indexName +:+ ": "
                   +:+ strings_Join (failure_message <$> fails) "; "))
  end.
Proof.
  intros Hdocs Hnew Hbodies Hadds Hclose. unfold bulkInsertDocuments.
  destruct (decide (length docs = 0)) as [Hlen|_].
  { by apply nil_length_inv in Hlen. }
  unfold request at 1. rewrite Hnew.
  erewrite bulkInsert_loop_accepted; [|done..].
  unfold request. simpl. rewrite Hclose. simpl.
  rewrite foldl_OnFailure, <-fmap_app.
  destruct (fails1 ++ fails2) as [|f fails]; simpl; [|done].
  by destruct (decide (0 < Stats_NumFailed w2)%N).
Qed.

Lemma bulkInsert_loop_requests (docs : list document) (bulkErrors : list string) (st : St) :
  ∃ sent,
    trace (bulkInsert_loop docs bulkErrors st).2 = trace st ++ sent
    ∧ sent `prefix_of` add_calls docs
    ∧ (∀ errs, (bulkInsert_loop docs bulkErrors st).1 = Ok errs →
               sent = add_calls docs ∧ all_encode docs = true).
Proof.
  revert bulkErrors st. induction docs as [|doc rest IH]; intros bulkErrors st; simpl.
  { exists []. by rewrite app_nil_r. }
  destruct (json_Marshal_doc (Body doc)) as [body|err]; simpl.
  2:{ exists []. rewrite app_nil_r. split_and!; [done | done | by intros ? [=]]. }
  unfold request. destruct (Indexer_Add _ _) as [[fails [[]|err]] w]; simpl.
  - match goal with |- context [bulkInsert_loop rest ?b ?s] =>
      destruct (IH b s) as (sent & Htr & Hpre & Hok) end.
    exists (CallAdd (mkItem doc body) :: sent). rewrite Htr. simpl.
    split_and!; [by rewrite <-app_assoc | by apply prefix_cons |].
    intros errs Herrs. destruct (Hok errs Herrs) as [Hs He]. by rewrite Hs, He.
  - exists [CallAdd (mkItem doc body)].
    split_and!; [done | apply prefix_cons, prefix_nil | by intros ? [=]].
Qed.

Lemma bulkInsertDocuments_sends (indexName : string) (docs : list document) :
  sends_prefix_of (bulkInsertDocuments indexName docs) (populate_calls indexName docs).
Proof.
  intros st. unfold populate_calls. destruct docs as [|doc rest].
  { exists []. simpl. by rewrite app_nil_r. }
  unfold bulkInsertDocuments. rewrite decide_False by done.
  destruct (request (CallNewBulkIndexer indexName) (NewBulkIndexer indexName) st)
    as [r0 st0] eqn:Hreq.
  assert (trace st0 = trace st ++ [CallNewBulkIndexer indexName]) as Ht0.
  { unfold request in Hreq. destruct (NewBulkIndexer _ _). by simplify_eq/=. }
  destruct r0 as [[]|err].
  2:{ exists [CallNewBulkIndexer indexName].
      split_and!; [done | apply prefix_cons, prefix_nil | done]. }
  destruct (bulkInsert_loop_requests (doc :: rest) [] st0) as (sent & Htr & Hpre & Hok).
  destruct (bulkInsert_loop (doc :: rest) [] st0) as [[bulkErrors|err] st1];
    cbn [fst snd] in *.
  2:{ exists (CallNewBulkIndexer indexName :: sent).
      split_and!; [by rewrite Htr, Ht0, <-app_assoc | | done].
      by apply prefix_cons, prefix_app_r. }
  destruct (Hok bulkErrors eq_refl) as [-> Henc]. rewrite Henc.
  exists (CallNewBulkIndexer indexName :: add_calls (doc :: rest) ++ [CallClose]).
  split_and!; [| done | done].
  destruct (request CallClose Indexer_Close st1) as [[fails r2] st2] eqn:Hclose.
  assert (trace st2 = trace st1 ++ [CallClose]) as Ht2.
  { unfold request in Hclose. destruct (Indexer_Close _). by simplify_eq/=. }
  destruct r2 as [[]|err]; repeat case_decide; cbn [fst snd];
    by rewrite Ht2, Htr, Ht0, <-!app_assoc.
Qed.

(** X14: whatever the indexer answers, the requests of a populate phase are
    the first ones of: open one indexer, hand over one item per record in
    the order of the records, close the indexer; and they are all of these
    when the phase succeeds. Nothing is sent for an empty record list. *)
Theorem bulkInsertDocuments_requests (indexName : string) (docs : list document)
    (st : St) :
  ∃ sent,
    trace (bulkInsertDocuments indexName docs st).2 = trace st ++ sent
    ∧ sent `prefix_of` populate_calls indexName docs
    ∧ ((bulkInsertDocuments indexName docs st).1 = Ok tt →
       sent = populate_calls indexName docs)
    ∧ (docs = [] → sent = []).
Proof.
  destruct (bulkInsertDocuments_sends indexName docs st) as (sent & Htr & Hpre & Hok).
  exists sent. split_and!; [done..|].
  intros ->. by apply prefix_nil_inv in Hpre.
Qed.

End populate_more.

(** * Further properties of the Loader *)

Section loader_more.
Context `{GoRuntime} {World : Type} `{Client World}.

Lemma refreshIndex_trace (nm : string) (st : St) :
  trace (refreshIndex nm st).2 = trace st ++ [CallRefresh nm].
Proof.
  unfold refreshIndex, request. destruct (Indices_Refresh _ _) as [[res|err] w]; simpl.
  - by destruct (checkResponse res).
  - done.
Qed.

Lemma deleteIndex_sends (nm : string) :
  sends_prefix_of (deleteIndex nm) [CallDelete [nm] true].
Proof. intros st. eexists. split_and!; [apply deleteIndex_trace | done..]. Qed.

Lemma refreshIndex_sends (nm : string) :
  sends_prefix_of (refreshIndex nm) [CallRefresh nm].
Proof. intros st. eexists. split_and!; [apply refreshIndex_trace | done..]. Qed.

Lemma createIndex_sends (nm : string) (mapping settings : option string) :
  sends_prefix_of (createIndex nm mapping settings) (create_calls nm mapping settings).
Proof.
  intros st. exists (create_calls nm mapping settings).
  split_and!; [|done..]. rewrite createIndex_trace. unfold create_calls.
  destruct (buildCreateIndexBody _ _); [done | by rewrite app_nil_r].
Qed.

Lemma Load_then_sends (m k : @M World unit) (calls rest : list call) :
  sends_prefix_of m calls → sends_prefix_of k rest →
  sends_prefix_of (Load_then m k) (calls ++ rest).
Proof.
  intros Hm Hk st. unfold Load_then.
  destruct (Hm st) as (sent & Htr & Hpre & Hok).
  destruct (m st) as [[[]|err] st1]; cbn [fst snd] in *.
  - destruct (Hk st1) as (sent' & Htr' & Hpre' & Hok'). rewrite (Hok eq_refl) in Htr.
    exists (calls ++ sent'). split_and!.
    + by rewrite Htr', Htr, <-app_assoc.
    + by apply prefix_app.
    + intros Hr. by rewrite (Hok' Hr).
  - exists sent. split_and!; [done | by apply prefix_app_r | done].
Qed.

Lemma Load_sends (fixtures : list indexFixture) :
  sends_prefix_of (Load fixtures) (Load_calls fixtures).
Proof.
  induction fixtures as [|f rest IH].
  { intros st. exists []. simpl. by rewrite app_nil_r. }
  change (Load (f :: rest)) with
    (Load_then (deleteIndex (name f))
       (Load_then (createIndex (name f) (mapping f) (settings f))
          (Load_then (bulkInsertDocuments (name f) (documents f))
             (Load_then (refreshIndex (name f)) (Load rest))))).
  change (Load_calls (f :: rest)) with (fixture_calls f ++ Load_calls rest).
  unfold fixture_calls.
  change (CallDelete [name f] true :: ?l) with ([CallDelete [name f] true] ++ l).
  rewrite <-!app_assoc.
  repeat apply Load_then_sends;
    auto using deleteIndex_sends, createIndex_sends, bulkInsertDocuments_sends,
               refreshIndex_sends.
Qed.

(** X15: whatever the store answers, the requests [Load] sends are the
    first ones of a list fixed by the fixture set alone: for each
    collection in order, the deletion, the creation, the requests of the
    populate phase and the refresh; when [Load] succeeds it has sent all of
    them. *)
Theorem Load_requests (fixtures : list indexFixture) (st : St) :
  ∃ sent,
    trace (Load fixtures st).2 = trace st ++ sent
    ∧ sent `prefix_of` Load_calls fixtures
    ∧ ((Load fixtures st).1 = Ok tt → sent = Load_calls fixtures).
Proof.
  destruct (Load_sends fixtures st) as (sent & Htr & Hpre & Hok).
  exists sent. by split_and!.
Qed.

Lemma Clean_result (fixtures : list indexFixture) (st : St) :
  (Clean fixtures st).1 =
  match failures (delete_every fixtures st).1 with
  | [] => Ok tt
  | errs => Err (wrap "testfixtures: cleaning up: " (errors_Join errs))
  end.
Proof.
  unfold Clean. rewrite Clean_loop_spec. simpl.
  by destruct (failures _).
Qed.

Lemma delete_every_named (fixtures : list indexFixture) (st : St) :
  Forall2 (λ f r, ∀ e, r = Err e →
                       is_substring ("deleting index " +:+ strconv_Quote (name f)) (Error e)
                       ∧ e ∈ failures (delete_every fixtures st).1)
    fixtures (delete_every fixtures st).1.
Proof.
  revert st. induction fixtures as [|f rest IH]; intros st; simpl; [constructor|].
  destruct (deleteIndex (name f) st) as [r st1] eqn:Hdel. specialize (IH st1).
  destruct (delete_every rest st1) as [rs st2]. simpl in *.
  constructor.
  - intros e ->. split; [|unfold failures; simpl; apply list_elem_of_here].
    unfold deleteIndex, request in Hdel.
    destruct (Indices_Delete _ _ _) as [[res|e'] w]; simpl in Hdel.
    + destruct (checkResponse res) as [|e']; simplify_eq. unfold wrap. simpl.
      exists "", (": " +:+ Error e'). by rewrite string_app_nil_l, !string_app_assoc.
    + simplify_eq. unfold wrap. simpl.
      exists "", (": " +:+ Error e'). by rewrite string_app_nil_l, !string_app_assoc.
  - eapply Forall2_impl; [exact IH|]. intros f' r' Hr e ->.
    destruct (Hr e eq_refl) as [? ?]. split; [done|].
    unfold failures. simpl. destruct r; [done | by right].
Qed.

(** X16: the error of [Clean] names every collection whose deletion
    failed: for each of them its message holds [deleting index] followed by
    the quoted name of the collection. *)
Theorem Clean_names_failures (fixtures : list indexFixture) (st : St) :
  Forall2 (λ f r, ∀ e, r = Err e →
             ∃ err, (Clean fixtures st).1 = Err err
                    ∧ is_substring ("deleting index " +:+ strconv_Quote (name f))
                        (Error err))
    fixtures (delete_every fixtures st).1.
Proof.
  eapply Forall2_impl; [apply delete_every_named|].
  intros f r Hr e ->. destruct (Hr e eq_refl) as [Hname He].
  rewrite Clean_result. destruct (failures _) as [|e0 errs] eqn:Hfail.
  { by apply elem_of_nil in He. }
  eexists. split; [done|]. eapply is_substring_trans; [exact Hname|].
  unfold wrap, errors_Join. cbn [Error]. apply is_substring_app_l, is_substring_Join.
  by apply list_elem_of_fmap_2.
Qed.

End loader_more.

(** * Construction *)

Section construction_more.
Context `{GoRuntime} {ClientHandle ExecContext : Type}.

Lemma New_options_settings (ss : list (@setting ExecContext))
    (l : @Loader _ ClientHandle ExecContext) :
  New_options (option_of <$> ss) l =
  Ok {| client := client l;
        dir := foldl (λ d s, match s with SetDirectory d' => d' | SetContext _ => d end)
                 (dir l) ss;
        ctx := foldl (λ c s, match s with SetContext c' => c' | SetDirectory _ => c end)
                 (ctx l) ss;
        fixtures := fixtures l |}.
Proof.
  revert l. induction ss as [|s ss IH]; intros l; csimpl.
  - by destruct l.
  - destruct s; simpl; by rewrite IH.
Qed.

(** X17: with the options of the package, the directory named last and the
    context given last are the ones that count; [New] on a client that is
    not nil fails when no directory, or an empty one, was named last,
    fails with the error of the parser, prefixed, when that directory does
    not parse, and otherwise returns a Loader with that client, directory
    and context (the background context when none was given) and the
    parsed fixtures. *)
Theorem New_settings (fs : string → errno + node) (background : ExecContext)
    (c : ClientHandle) (ss : list (@setting ExecContext)) :
  New fs background (Some c) (option_of <$> ss) =
  if decide (last_directory ss = "")
  then Err (Errorf "testfixtures: Directory option is required")
  else
    match parseFixtures (last_directory ss) (fs (last_directory ss)) with
    | Err err => Err (Errorf ("testfixtures: " +:+ Error err))
    | Ok fx =>
        Ok {| client := c; dir := last_directory ss;
              ctx := last_context background ss; fixtures := fx |}
    end.
Proof.
  unfold New. rewrite New_options_settings. simpl.
  fold (last_directory ss). fold (last_context background ss).
  by destruct (decide (last_directory ss = "")).
Qed.

(** X18: whatever the options are, a Loader that [New] returns was built
    for a client that is not nil, has a directory that is not empty, and
    holds exactly the fixtures parsed from that directory: at least one,
    in the order of their names. *)
Theorem New_Loader_invariants (fs : string → errno + node) (background : ExecContext)
    (c : option ClientHandle) (opts : list Option) (l : Loader) :
  New fs background c opts = Ok l →
  c ≠ None
  ∧ dir l ≠ ""
  ∧ parseFixtures (dir l) (fs (dir l)) = Ok (fixtures l)
  ∧ fixtures l ≠ []
  ∧ Sorted String.le (name <$> fixtures l).
Proof.
  unfold New. destruct c as [h|]; [|done].
  destruct (New_options opts _) as [l0|]; [|done].
  destruct (decide (dir l0 = "")) as [|Hdir]; [done|].
  destruct (parseFixtures (dir l0) (fs (dir l0))) as [fx|] eqn:Hfx; [|done].
  intros [= <-]. simpl. split_and!; [done..| |].
  - assert (∃ es, fs (dir l0) = inr (Dir es)) as [es Hes].
    { destruct (fs (dir l0)) as [|[|es|]]; [done.. | by exists es | done]. }
    rewrite Hes in Hfx. by destruct (parseFixtures_names _ _ _ Hfx) as (_ & _ & ?).
  - assert (∃ es, fs (dir l0) = inr (Dir es)) as [es Hes].
    { destruct (fs (dir l0)) as [|[|es|]]; [done.. | by exists es | done]. }
    rewrite Hes in Hfx. destruct (parseFixtures_names _ _ _ Hfx) as (_ & -> & _).
    apply (Sorted_fmap _ entry_le); [done|]. apply Sorted_filter_entries.
Qed.

End construction_more.

(** * Further sample runs *)

Section more_sample_runs.
#[local] Existing Instance sample_runtime.
#[local] Existing Instance scripted_client.

Lemma parseIndexDir_fields_witness :
  ∃ f, parseIndexDir "fixtures/users" "users" sample_users = Ok f
       ∧ name f = "users" ∧ mapping f = Some "{}" ∧ settings f = Some "{}".
Proof.
  assert (is_Ok (parseIndexDir "fixtures/users" "users" sample_users)) as [f Hf].
  { eexists. reflexivity. }
  destruct (parseIndexDir_fields _ _ _ _ Hf) as (es & Hes & Hn & Hm & Hs & Hdocs).
  injection Hes as <-. exists f. split; [exact Hf|].
  split; [exact Hn|]. split; [exact Hm | exact Hs].
Defined.

Lemma parseIndexDir_invalid_schema_witness :
  json_Valid "not json" = false
  ∧ parseIndexDir "fixtures/bad" "bad" (Dir bad_schema_dir)
    = Err (Errorf ("reading _mapping.json: invalid JSON in "
                   +:+ quote_plain "fixtures/bad/_mapping.json")).
Proof.
  split; [reflexivity|].
  exact (proj1 (parseIndexDir_invalid_schema "fixtures/bad" "bad" bad_schema_dir
                  "not json" eq_refl) eq_refl).
Defined.

Lemma parseFixtures_error_cases_witness :
  parseFixtures "fixtures" (inr (Dir broken_root))
  = Err (MalformedRecords "users" "docs.yml" broken_cause)
  ∧ ∃ d cause, d ∈ collection_dirs broken_root
               ∧ MalformedRecords "users" "docs.yml" broken_cause
                 = wrap ("parsing index " +:+ strconv_Quote d.1 +:+ ": ") cause.
Proof.
  assert (parseFixtures "fixtures" (inr (Dir broken_root))
          = Err (MalformedRecords "users" "docs.yml" broken_cause)) as Hparse
    by reflexivity.
  split; [exact Hparse|].
  destruct (parseFixtures_error_cases "fixtures" (inr (Dir broken_root))
              (MalformedRecords "users" "docs.yml" broken_cause) Hparse)
    as [(oserr & Hos & _) | [(es & _ & Hdirs & Hempty) |
        (es & pre & d & post & cause & Hes & Hdirs & _ & _ & Herr)]].
  - discriminate Hos.
  - discriminate Hempty.
  - injection Hes as <-. exists d, cause. split; [|exact Herr].
    rewrite Hdirs. apply elem_of_app. right. apply list_elem_of_here.
Defined.

Lemma parseFixtures_names_distinct_witness :
  NoDup sample_root.*1
  ∧ ∃ fs, sample_fixtures = Ok fs ∧ NoDup (name <$> fs).
Proof.
  assert (NoDup sample_root.*1) as Hnd by compute_done.
  split; [exact Hnd|].
  assert (is_Ok sample_fixtures) as [fs Hfs] by (eexists; reflexivity).
  exists fs. split; [exact Hfs|].
  exact (proj1 (parseFixtures_names_distinct "fixtures" sample_root fs Hnd Hfs)).
Defined.

Lemma parseFixtures_no_id_in_bodies_witness :
  ∃ fs, sample_fixtures = Ok fs
        ∧ Forall (λ f, Forall (λ doc, Body doc !! "_id" = None) (documents f)) fs.
Proof.
  assert (is_Ok sample_fixtures) as [fs Hfs] by (eexists; reflexivity).
  exists fs. split; [exact Hfs|].
  exact (parseFixtures_no_id_in_bodies "fixtures" (inr (Dir sample_root)) fs Hfs).
Defined.

Lemma bulkInsertDocuments_encoding_abort_witness :
  @json_Marshal_doc number_runtime (Body unscored)
  = Err (Errorf "json: unsupported value: NaN")
  ∧ @bulkInsertDocuments number_runtime _ scripted_client "scores"
      ([scored] ++ unscored :: [scored]) (start [])
    = (Err (Errorf "marshaling document: json: unsupported value: NaN"),
       {| world := {| pending := []; numFailed := 0 |};
          trace := [ CallNewBulkIndexer "scores";
                     CallAdd {| Action := "index"; DocumentID := "1";
                                ItemBody := scored_body |} ] |}).
Proof.
  split; [reflexivity|].
  apply (@bulkInsertDocuments_encoding_abort number_runtime _ scripted_client
           "scores" [scored] [scored] unscored [scored_body] (start [])
           {| pending := []; numFailed := 0 |} {| pending := []; numFailed := 0 |} []
           (Errorf "json: unsupported value: NaN")).
  - reflexivity.
  - repeat constructor.
  - apply (adds_accepted_cons _ _ _ [] {| pending := []; numFailed := 0 |} []);
      [reflexivity | constructor].
  - reflexivity.
Defined.

Lemma bulkInsertDocuments_add_refused_witness :
  (bulkInsertDocuments "users" users_docs
     (start [Accept [] (Ok tt); Accept [conflict] (Err canceled)])).1
  = Err (Errorf "adding document to bulk indexer: context canceled").
Proof.
  change users_docs with
    ([] ++ mkDocument (<["_id" := VInt 7]> {["name" := VString "Alice"]})
     :: [mkDocument {["name" := VString "Bob"]}]).
  rewrite (bulkInsertDocuments_add_refused "users" []
             [mkDocument {["name" := VString "Bob"]}]
             (mkDocument (<["_id" := VInt 7]> {["name" := VString "Alice"]}))
             [] ("{" +:+ quote_plain "name" +:+ ":" +:+ quote_plain "Alice" +:+ "}")
             (start [Accept [] (Ok tt); Accept [conflict] (Err canceled)])
             {| pending := [Accept [conflict] (Err canceled)]; numFailed := 0 |}
             {| pending := [Accept [conflict] (Err canceled)]; numFailed := 0 |}
             {| pending := []; numFailed := 1 |}
             [] [conflict] canceled).
  - reflexivity.
  - reflexivity.
  - constructor.
  - constructor.
  - reflexivity.
  - reflexivity.
Defined.

Lemma bulkInsertDocuments_close_failed_witness :
  users_docs ≠ []
  ∧ (bulkInsertDocuments "users" users_docs
       (start [Accept [] (Ok tt); Accept [conflict] (Ok tt); Accept [] (Ok tt);
               Accept [too_large] (Err canceled)])).1
    = Err (Errorf ("closing bulk indexer for " +:+ quote_plain "users"
                   +:+ ": context canceled")).
Proof.
  split; [discriminate|].
  rewrite (bulkInsertDocuments_close_failed "users" users_docs users_bodies _
             {| pending := [Accept [conflict] (Ok tt); Accept [] (Ok tt);
                            Accept [too_large] (Err canceled)]; numFailed := 0 |}
             {| pending := [Accept [too_large] (Err canceled)]; numFailed := 1 |}
             {| pending := []; numFailed := 2 |}
             [conflict] [too_large] canceled).
  - reflexivity.
  - discriminate.
  - reflexivity.
  - repeat constructor.
  - apply (adds_accepted_cons _ _ _ [conflict]
             {| pending := [Accept [] (Ok tt); Accept [too_large] (Err canceled)];
                numFailed := 1 |} []); [reflexivity|].
    apply (adds_accepted_cons _ _ _ []
             {| pending := [Accept [too_large] (Err canceled)]; numFailed := 1 |} []);
      [reflexivity | constructor].
  - reflexivity.
Defined.

Lemma bulkInsertDocuments_messages_witness :
  users_docs ≠ []
  ∧ (bulkInsertDocuments "users" users_docs failing_batch).1
    = Err (Errorf ("bulk insert errors for " +:+ quote_plain "users"
                   +:+ ": [409] version_conflict_engine_exception: "
                   +:+ "document already exists; flush: request entity too large")).
Proof.
  split; [discriminate|].
  rewrite (bulkInsertDocuments_messages "users" users_docs users_bodies failing_batch
             {| pending := [Accept [conflict] (Ok tt); Accept [] (Ok tt);
                            Accept [too_large] (Ok tt)]; numFailed := 0 |}
             {| pending := [Accept [too_large] (Ok tt)]; numFailed := 1 |}
             {| pending := []; numFailed := 2 |}
             [conflict] [too_large]).
  - reflexivity.
  - discriminate.
  - reflexivity.
  - repeat constructor.
  - apply (adds_accepted_cons _ _ _ [conflict]
             {| pending := [Accept [] (Ok tt); Accept [too_large] (Ok tt)];
                numFailed := 1 |} []); [reflexivity|].
    apply (adds_accepted_cons _ _ _ []
             {| pending := [Accept [too_large] (Ok tt)]; numFailed := 1 |} []);
      [reflexivity | constructor].
  - reflexivity.
Defined.

Lemma New_Loader_invariants_witness :
  ∃ l : @Loader _ unit unit,
    New sample_fs tt (Some tt) [WithContext tt; Directory "fixtures"] = Ok l
    ∧ dir l ≠ ""
    ∧ fixtures l ≠ []
    ∧ Sorted String.le (name <$> fixtures l).
Proof.
  assert (is_Ok (New (ClientHandle:=unit) sample_fs tt (Some tt)
                   [WithContext tt; Directory "fixtures"])) as [l Hl].
  { eexists. reflexivity. }
  exists l. split; [exact Hl|].
  destruct (New_Loader_invariants _ _ _ _ _ Hl) as (_ & Hdir & _ & Hne & Hsorted).
  split; [exact Hdir|]. split; [exact Hne | exact Hsorted].
Defined.

End more_sample_runs.

(** * Error messages of the package *)

Section messages.
Context `{GoRuntime} {World : Type} `{Client World} {ClientHandle ExecContext : Type}.

Lemma New_options_Err (opts : list Option) (l : @Loader _ ClientHandle ExecContext)
    (err : error) :
  New_options opts l = Err err →
  ∃ msg, Error err = "testfixtures: applying option: " +:+ msg.
Proof.
  revert l. induction opts as [|opt rest IH]; intros l; simpl; [done|].
  destruct (opt l) as [l'|e]; [apply IH|].
  intros [= <-]. by exists (Error e).
Qed.

Lemma Load_Err (fixtures : list indexFixture) (st : St) (err : error) :
  (Load fixtures st).1 = Err err → ∃ msg, Error err = "testfixtures: " +:+ msg.
Proof.
  revert st. induction fixtures as [|f rest IH]; intros st; simpl; [done|].
  destruct (deleteIndex _ _) as [[[]|e] st1]; [|intros [= <-]; by eexists].
  destruct (createIndex _ _ _ _) as [[[]|e] st2]; [|intros [= <-]; by eexists].
  destruct (bulkInsertDocuments _ _ _) as [[[]|e] st3]; [|intros [= <-]; by eexists].
  destruct (refreshIndex _ _) as [[[]|e] st4]; [|intros [= <-]; by eexists].
  apply IH.
Qed.

(** X19: every error that [New], [Load] or [Clean] returns has a message
    that starts with [testfixtures: ]; that of [Clean] goes on with
    [cleaning up: ]. *)
Theorem errors_prefixed :
  (∀ (fs : string → errno + node) (background : ExecContext)
     (c : option ClientHandle) (opts : list Option) err,
     New fs background c opts = Err err →
     ∃ msg, Error err = "testfixtures: " +:+ msg)
  ∧ (∀ (fixtures : list indexFixture) (st : @St World) err,
       (Load fixtures st).1 = Err err →
       ∃ msg, Error err = "testfixtures: " +:+ msg)
  ∧ (∀ (fixtures : list indexFixture) (st : @St World) err,
       (Clean fixtures st).1 = Err err →
       ∃ msg, Error err = "testfixtures: cleaning up: " +:+ msg).
Proof.
  split_and!.
  - intros fs background c opts err. unfold New.
    destruct c as [h|]; [|intros [= <-]; by eexists].
    destruct (New_options opts _) as [l|e] eqn:Hopts.
    + destruct (decide (dir l = "")); [intros [= <-]; by eexists|].
      destruct (parseFixtures _ _) as [fx|e]; [done|].
      intros [= <-]. by eexists.
    + intros [= <-]. destruct (New_options_Err _ _ _ Hopts) as [msg ->].
      by exists ("applying option: " +:+ msg).
  - apply Load_Err.
  - intros fixtures st err. rewrite Clean_result.
    destruct (failures _) as [|e errs]; [done|].
    intros [= <-]. by eexists.
Qed.

End messages.
